(** * Grid-search planner and spline trajectory fitter

    A shallow embedding of [path_planner.py] and [trajectory_generator.py].

    The Python code computes on machine floats.  The embedding is written once
    over an interface [Arith] of the numeric operations the code uses, and the
    interface is instantiated twice:

    - at [float] (IEEE binary64, the operations CPython performs), which makes
      every definition executable on concrete inputs;
    - at [R], the exact real numbers, where the geometric and interpolation
      properties are stated (rounding error is outside the model).

    Loops that need not terminate (the planner's [while open_list]) take a
    fuel argument; running out of fuel is the distinguished outcome
    [Unfinished].  The messages that the code prints are not modelled.

    [heapq], the NumPy array operations and SciPy's [CubicSpline] are not part
    of the repository; they are written out here as the code uses them. *)

From Stdlib Require Import Uint63 PrimFloat FloatOps SpecFloat.
From Stdlib Require Import ZArith Reals Lra Lia.
From stdpp Require Import base option list gmap.

#[global] Set Warnings "-clear-no-such-hyp,-inexact-float".

(** ** Outcomes of a call *)

(** The exceptions that the modelled calls can raise. *)
Inductive exn : Type :=
  | ValueError      (* raised by SciPy's validation of the knots *)
  | IndexError      (* indexing an empty array *)
  | AttributeError  (* reading an attribute that was never assigned *)
  | ArangeError.    (* np.arange called with a zero stride; the exception
                       class depends on the NumPy version *)

Inductive outcome (A : Type) : Type :=
  | Returned (a : A)
  | Raised (e : exn)
  | Unfinished.
Arguments Returned {A} a.
Arguments Raised {A} e.
Arguments Unfinished {A}.

#[export] Instance outcome_ret : MRet outcome := fun _ a => Returned a.
#[export] Instance outcome_bind : MBind outcome := fun _ _ k m =>
  match m with
  | Returned a => k a
  | Raised e => Raised e
  | Unfinished => Unfinished
  end.

(** ** The numeric interface *)

Class Arith (num : Type) : Type := {
  nzero : num;
  nadd : num -> num -> num;
  nsub : num -> num -> num;
  nmul : num -> num -> num;
  ndiv : num -> num -> num;
  nneg : num -> num;
  nsqrt : num -> num;                (* math.sqrt, np.sqrt *)
  nltb : num -> num -> bool;         (* < *)
  nleb : num -> num -> bool;         (* <= *)
  neqb : num -> num -> bool;         (* == *)
  nfinite : num -> bool;             (* np.isfinite *)
  of_nat : nat -> num;               (* integer literals and array indices *)
  round1 : num -> Z;                 (* round(x, 1), as a number of tenths *)
  nceil : num -> Z;                  (* ceil, used by np.arange *)
  lit_1e_3 : num;                    (* the literal 1e-3 *)
  lit_1e_6 : num                     (* the literal 1e-6 *)
}.

Declare Scope num_scope.
Delimit Scope num_scope with num.
Notation "0" := nzero : num_scope.
Infix "+" := nadd : num_scope.
Infix "-" := nsub : num_scope.
Infix "*" := nmul : num_scope.
Infix "/" := ndiv : num_scope.
Notation "- x" := (nneg x) : num_scope.
Infix "<?" := nltb : num_scope.
Infix "<=?" := nleb : num_scope.
Infix "==?" := neqb (at level 70) : num_scope.

(** ** [heapq]: a binary min-heap stored in a list *)

Section heapq.
Context {A : Type} (lt : A -> A -> bool).

(** The loop of [_siftdown]: move [newitem] from [pos] towards [startpos]
    while it is smaller than its parent.  [pos] decreases at every turn, so
    [pos] turns of fuel are enough. *)
Fixpoint _siftdown_loop (fuel : nat) (heap : list A) (newitem : A)
    (startpos pos : nat) : list A :=
  match fuel with
  | O => <[pos := newitem]> heap
  | S fuel' =>
      if decide (startpos < pos) then
        let parentpos := (pos - 1) / 2 in
        match heap !! parentpos with
        | Some parent =>
            if lt newitem parent
            then _siftdown_loop fuel' (<[pos := parent]> heap) newitem startpos parentpos
            else <[pos := newitem]> heap
        | None => <[pos := newitem]> heap
        end
      else <[pos := newitem]> heap
  end.

Definition _siftdown (heap : list A) (startpos pos : nat) : list A :=
  match heap !! pos with
  | Some newitem => _siftdown_loop pos heap newitem startpos pos
  | None => heap
  end.

(** The loop of [_siftup]: bubble the smaller child up until a leaf is
    reached; returns the heap and the position of the hole. *)
Fixpoint _siftup_loop (fuel : nat) (heap : list A) (pos : nat) : list A * nat :=
  match fuel with
  | O => (heap, pos)
  | S fuel' =>
      let endpos := length heap in
      let childpos := 2 * pos + 1 in
      if decide (childpos < endpos) then
        let rightpos := childpos + 1 in
        let childpos :=
          match heap !! childpos, heap !! rightpos with
          | Some l, Some r => if negb (lt l r) then rightpos else childpos
          | _, _ => childpos
          end in
        match heap !! childpos with
        | Some c => _siftup_loop fuel' (<[pos := c]> heap) childpos
        | None => (heap, pos)
        end
      else (heap, pos)
  end.

Definition _siftup (heap : list A) (pos : nat) : list A :=
  match heap !! pos with
  | Some newitem =>
      let '(heap', pos') := _siftup_loop (length heap) heap pos in
      _siftdown (<[pos' := newitem]> heap') pos pos'
  | None => heap
  end.

Definition heappush (heap : list A) (item : A) : list A :=
  _siftdown (heap ++ [item]) 0 (length heap).

(** [heappop] returns the smallest item and the remaining heap; [None]
    stands for the [IndexError] on an empty heap. *)
Definition heappop (heap : list A) : option (A * list A) :=
  match last heap with
  | None => None
  | Some lastelt =>
      match removelast heap with
      | [] => Some (lastelt, [])
      | returnitem :: rest =>
          Some (returnitem, _siftup (lastelt :: rest) 0)
      end
  end.
End heapq.

(** ** [path_planner.py] *)

Section path_planner.
Context {num : Type} `{!Arith num}.
Local Open Scope num_scope.

(** A position is a triple [(x, y, z)]. *)
Definition pos : Type := num * num * num.

(** The environment: the two queries the planner calls. *)
Record Environment : Type := {
  is_outside : pos -> bool;
  is_collide : pos -> bool
}.

#[warnings="-register-all"] Inductive Node : Type := Build_Node {
  node_x : num;
  node_y : num;
  node_z : num;
  node_g : num;
  node_h : num;
  node_f : num;
  node_parent : option Node
}.

(** [Node.__init__]: [f] is computed once, from the [g] and [h] given. *)
Definition new_Node (x y z g h : num) (parent : option Node) : Node :=
  Build_Node x y z g h (g + h) parent.

(** [Node.__lt__] *)
Definition Node_lt (self other : Node) : bool := node_f self <? node_f other.

Definition get_pos (self : Node) : pos := (node_x self, node_y self, node_z self).

(** [v ** 2] *)
Definition sq (v : num) : num := v * v.

Definition get_dist (pos1 pos2 : pos) : num :=
  let '(x1, y1, z1) := pos1 in
  let '(x2, y2, z2) := pos2 in
  nsqrt (sq (x1 - x2) + sq (y1 - y2) + sq (z1 - z2)).

(** The triple loop that fills [movements]. *)
Definition movements (step_size : num) : list pos :=
  dx ← [- step_size; 0; step_size];
  dy ← [- step_size; 0; step_size];
  dz ← [- step_size; 0; step_size];
  if (dx ==? 0) && (dy ==? 0) && (dz ==? 0) then [] else [(dx, dy, dz)].

(** [reconstruct_path]: follow the parent links, then reverse. *)
Fixpoint backtrack (current : Node) : list pos :=
  get_pos current ::
  match node_parent current with
  | Some parent => backtrack parent
  | None => []
  end.

Definition reconstruct_path (node : Node) : list pos := reverse (backtrack node).

(** The key under which a node is recorded in [closed_set]. *)
Definition node_key (n : Node) : Z * Z * Z :=
  (round1 (node_x n), round1 (node_y n), round1 (node_z n)).

Record search_state : Type := {
  open_list : list Node;
  closed_set : gset (Z * Z * Z)
}.

Inductive step_result : Type :=
  | Done (path : list pos)
  | Continue (st : search_state).

Section search.
Variable env : Environment.
Variable goal_pos : pos.
Variable step_size : num.

(** One turn of [for dx, dy, dz in movements]. *)
Definition try_move (current_node : Node) (open_list : list Node)
    (m : pos) : list Node :=
  let '(dx, dy, dz) := m in
  let new_x := node_x current_node + dx in
  let new_y := node_y current_node + dy in
  let new_z := node_z current_node + dz in
  let new_pos := (new_x, new_y, new_z) in
  if is_outside env new_pos then open_list
  else if is_collide env new_pos then open_list
  else
    let g_cost := node_g current_node + nsqrt (sq dx + sq dy + sq dz) in
    let h_cost := get_dist new_pos goal_pos in
    let new_node := new_Node new_x new_y new_z g_cost h_cost (Some current_node) in
    heappush Node_lt open_list new_node.

Definition expand (current_node : Node) (open_list : list Node) : list Node :=
  foldl (try_move current_node) open_list (movements step_size).

(** The node returned when the search stops next to the goal. *)
Definition goal_node_from (current_node : Node) : Node :=
  Build_Node goal_pos.1.1 goal_pos.1.2 goal_pos.2
    (node_g current_node + get_dist (get_pos current_node) goal_pos)
    0 (0 + 0) (Some current_node).

(** One turn of [while open_list]. *)
Definition a_star_step (st : search_state) : step_result :=
  match heappop Node_lt (open_list st) with
  | None => Done []
  | Some (current_node, open_list') =>
      if get_dist (get_pos current_node) goal_pos <? step_size then
        Done (reconstruct_path (goal_node_from current_node))
      else
        let key := node_key current_node in
        if bool_decide (key ∈ closed_set st) then
          Continue {| open_list := open_list'; closed_set := closed_set st |}
        else
          Continue {| open_list := expand current_node open_list';
                      closed_set := {[ key ]} ∪ closed_set st |}
  end.

Fixpoint a_star_loop (fuel : nat) (st : search_state) : outcome (list pos) :=
  match fuel with
  | O => Unfinished
  | S fuel' =>
      match a_star_step st with
      | Done path => Returned path
      | Continue st' => a_star_loop fuel' st'
      end
  end.

End search.

(** The node pushed before the loop starts. *)
Definition start_node_of (start_pos goal_pos : pos) : Node :=
  new_Node start_pos.1.1 start_pos.1.2 start_pos.2
    0 (get_dist start_pos goal_pos) None.

Definition a_star_search (env : Environment) (start_pos goal_pos : pos)
    (step_size : num) (fuel : nat) : outcome (list pos) :=
  a_star_loop env goal_pos step_size fuel
    {| open_list := heappush Node_lt [] (start_node_of start_pos goal_pos);
       closed_set := ∅ |}.
End path_planner.

Arguments pos num : clear implicits.
Arguments Node num : clear implicits.
Arguments Environment num : clear implicits.

(** ** [trajectory_generator.py] *)

Section trajectory_generator.
Context {num : Type} `{!Arith num}.
Local Open Scope num_scope.

(** *** The NumPy array operations used *)

Definition psub (p q : pos num) : pos num :=
  let '(x1, y1, z1) := p in
  let '(x2, y2, z2) := q in
  (x1 - x2, y1 - y2, z1 - z2).

(** [np.diff(a, axis=0)] on an array of points: [a[i+1] - a[i]]. *)
Fixpoint np_diff3 (a : list (pos num)) : list (pos num) :=
  match a with
  | p :: (q :: _) as rest => psub q p :: np_diff3 rest
  | _ => []
  end.

(** [np.diff] on a vector. *)
Fixpoint np_diff (a : list num) : list num :=
  match a with
  | u :: (v :: _) as rest => (v - u) :: np_diff rest
  | _ => []
  end.

(** [np.linalg.norm(diffs, axis=1)] and [np.sqrt((diffs ** 2).sum(axis=1))],
    on one row. *)
Definition norm (d : pos num) : num :=
  let '(dx, dy, dz) := d in nsqrt (sq dx + sq dy + sq dz).

(** [a[mask]] for a boolean mask. *)
Fixpoint select {A : Type} (mask : list bool) (a : list A) : list A :=
  match mask, a with
  | b :: mask', v :: a' => if b then v :: select mask' a' else select mask' a'
  | _, _ => []
  end.

Fixpoint cumsum_from (acc : num) (a : list num) : list num :=
  match a with
  | [] => []
  | t :: a' => (acc + t) :: cumsum_from (acc + t) a'
  end.

Definition np_cumsum (a : list num) : list num :=
  match a with
  | [] => []
  | t :: a' => t :: cumsum_from t a'
  end.

Definition np_maximum (a b : num) : num := if a <? b then b else a.

(** [np.arange(start, stop, step)]: [ceil((stop - start) / step)] values
    [start + i * step]. *)
Definition np_arange (start stop step : num) : outcome (list num) :=
  if step ==? 0 then Raised ArangeError
  else
    let len := Z.to_nat (nceil ((stop - start) / step)) in
    Returned ((fun i => start + of_nat i * step) <$> seq 0 len).

(** *** [scipy.interpolate.CubicSpline] with [bc_type='clamped'] *)

(** A piecewise polynomial: the breakpoints [x] and, for each interval
    [x[i], x[i+1]], the coefficients [(c[0,i], c[1,i], c[2,i], c[3,i])] of
    [c[0,i]*(t-x[i])**3 + c[1,i]*(t-x[i])**2 + c[2,i]*(t-x[i]) + c[3,i]]. *)
Record PPoly : Type := {
  pp_c : list (num * num * num * num);
  pp_x : list num
}.

(** The banded solve.  SciPy hands the tridiagonal system to LAPACK; the
    elimination below is what that computes in exact arithmetic.  The three
    diagonals are passed as SciPy stores them: [upper[j]] is the entry of
    row [j-1] and [lower[j]] the entry of row [j+1], both in column [j]. *)
Fixpoint forward_sweep (cp dp : num) (rows : list (num * num * num * num))
    : list (num * num) :=
  match rows with
  | [] => []
  | (a, b, c, d) :: rows' =>
      let den := b - a * cp in
      let cp' := c / den in
      let dp' := (d - a * dp) / den in
      (cp', dp') :: forward_sweep cp' dp' rows'
  end.

Fixpoint back_substitution (l : list (num * num)) : list num :=
  match l with
  | [] => []
  | (cp, dp) :: l' =>
      match back_substitution l' with
      | [] => [dp]
      | x1 :: xs => (dp - cp * x1) :: x1 :: xs
      end
  end.

Definition solve_banded (upper diag lower b : list num) : list num :=
  let rows :=
    zip_with (fun '(a, d) '(c, r) => (a, d, c, r))
      (zip (0 :: lower) diag) (zip (drop 1 upper ++ [0]) b) in
  back_substitution (forward_sweep 0 0 rows).

(** The Hermite-form coefficients of [CubicHermiteSpline.__init__]. *)
Definition hermite_coefficients (dx slope dydx y : list num)
    : list (num * num * num * num) :=
  zip_with (fun '(dxr, slope) '(d0, d1, y0) =>
      let t := (d0 + d1 - of_nat 2 * slope) / dxr in
      (t / dxr, (slope - d0) / dxr - t, d0, y0))
    (zip dx slope) (zip (zip dydx (drop 1 dydx)) y).

(** [CubicSpline.__init__]: the validation of the input (at least two
    knots, as many values as knots, only finite knots and values, strictly
    increasing knots; each failure is a [ValueError]), then the banded system
    for the derivatives at the knots. *)
Definition CubicSpline (x y : list num) : outcome PPoly :=
  let n := length x in
  if decide (n < 2)%nat then Raised ValueError
  else if decide (length y ≠ n) then Raised ValueError
  else if negb (forallb nfinite x) then Raised ValueError
  else if negb (forallb nfinite y) then Raised ValueError
  else
    let dx := np_diff x in
    if existsb (fun d => d <=? 0) dx then Raised ValueError
    else
      let slope := zip_with ndiv (np_diff y) dx in
      (* dx[:-1], dx[1:], slope[:-1], slope[1:] *)
      let dx0 := removelast dx in
      let dx1 := drop 1 dx in
      let slope0 := removelast slope in
      let slope1 := drop 1 slope in
      let upper := 0 :: 0 :: dx0 in
      let diag :=
        of_nat 1 :: zip_with (fun a b => of_nat 2 * (a + b)) dx0 dx1 ++ [of_nat 1] in
      let lower := dx1 ++ [0; 0] in
      let b :=
        0 :: zip_with (fun '(d1, s0) '(d0, s1) => of_nat 3 * (d1 * s0 + d0 * s1))
               (zip dx1 slope0) (zip dx0 slope1) ++ [0] in
      let s := solve_banded upper diag lower b in
      Returned {| pp_c := hermite_coefficients dx slope s y; pp_x := x |}.

(** The interval [i] with [x[i] <= xval < x[i+1]]. *)
Fixpoint find_interval (x : list num) (xval : num) (i : nat) : nat :=
  match x with
  | _ :: ((x1 :: _) as rest) =>
      if xval <? x1 then i else find_interval rest xval (S i)
  | _ => i
  end.

(** [PPoly.__call__] at one point, with extrapolation. *)
Definition PPoly_call (self : PPoly) (xval : num) : num :=
  let x := pp_x self in
  let a := default 0 (head x) in
  let b := default 0 (last x) in
  let interval :=
    if negb ((a <=? xval) && (xval <=? b)) then
      if xval <? a then Some O
      else if b <? xval then Some (length x - 2)%nat
      else None
    else if xval ==? b then Some (length x - 2)%nat
    else Some (find_interval x xval 0) in
  match interval ≫= fun i => pair (default 0 (x !! i)) <$> pp_c self !! i with
  | Some (xi, (c0, c1, c2, c3)) =>
      let s := xval - xi in
      let z := of_nat 1 in
      let res := 0 + c3 * z in
      let z := z * s in
      let res := res + c2 * z in
      let z := z * s in
      let res := res + c1 * z in
      let z := z * s in
      res + c0 * z
  | None => 0 / 0
  end.

(** *** [TrajectoryGenerator] *)

(** The attributes [avg_speed], [cs_x], [cs_y], [cs_z] are assigned only when
    at least two points remain; [tg_fit] is [None] when they are not. *)
Record TrajectoryGenerator : Type := {
  tg_path : list (pos num);
  tg_time_knots : list num;
  tg_fit : option (num * PPoly * PPoly * PPoly)
}.

(** The preprocessing of [__init__]: drop each point that lies within
    [1e-3] of the point before it in the input. *)
Definition deduplicate (raw_path : list (pos num)) : list (pos num) :=
  match raw_path with
  | [] => raw_path
  | _ =>
      let diffs := np_diff3 raw_path in
      let dists := norm <$> diffs in
      let mask := true :: ((fun d => lit_1e_3 <? d) <$> dists) in
      select mask raw_path
  end.

Definition _calculate_time_knots (path : list (pos num)) (avg_speed : num)
    : list num :=
  let diffs := np_diff3 path in
  let distances := norm <$> diffs in
  let distances := (fun d => np_maximum d lit_1e_6) <$> distances in
  let times := (fun d => d / avg_speed) <$> distances in
  0 :: np_cumsum times.

Definition TrajectoryGenerator_init (path : list (pos num)) (average_speed : num)
    : outcome TrajectoryGenerator :=
  let path := deduplicate path in
  if decide (length path < 2)%nat then
    Returned {| tg_path := path; tg_time_knots := [0]; tg_fit := None |}
  else
    let time_knots := _calculate_time_knots path average_speed in
    cs_x ← CubicSpline time_knots ((fun p => p.1.1) <$> path);
    cs_y ← CubicSpline time_knots ((fun p => p.1.2) <$> path);
    cs_z ← CubicSpline time_knots ((fun p => p.2) <$> path);
    Returned {| tg_path := path; tg_time_knots := time_knots;
                tg_fit := Some (average_speed, cs_x, cs_y, cs_z) |}.

Definition solve (self : TrajectoryGenerator) (dt : num)
    : outcome (list num * list num * list num * list num) :=
  if decide (length (tg_path self) < 2)%nat then Returned ([], [], [], [])
  else
    match tg_fit self with
    | None => Raised AttributeError
    | Some (_, cs_x, cs_y, cs_z) =>
        let total_time := default 0 (last (tg_time_knots self)) in
        t_eval ← np_arange 0 total_time dt;
        match last t_eval with
        | None => Raised IndexError
        | Some t_last =>
            let t_eval :=
              if t_last <? total_time then t_eval ++ [total_time] else t_eval in
            Returned (t_eval, PPoly_call cs_x <$> t_eval,
                      PPoly_call cs_y <$> t_eval, PPoly_call cs_z <$> t_eval)
        end
    end.
End trajectory_generator.

Arguments PPoly num : clear implicits.
Arguments TrajectoryGenerator num : clear implicits.

(** ** The executable instance: IEEE binary64 *)

Module Float.
(** Nearest integer to [a / b], ties to even, for [0 < b]. *)
Definition Z_div_half_even (a b : Z) : Z :=
  let q := (a / b)%Z in
  let r := (a mod b)%Z in
  if (2 * r <? b)%Z then q
  else if (b <? 2 * r)%Z then (q + 1)%Z
  else if Z.even q then q else (q + 1)%Z.

(** [round(x, 1)]: the decimal with one fractional digit nearest to the
    exact value of [x], ties to even, as a number of tenths.  Infinities and
    NaN, which [round] returns unchanged, are outside the modelled range and
    are sent to [0]. *)
Definition float_round1 (x : float) : Z :=
  match Prim2SF x with
  | S754_finite s m e =>
      let a := (10 * Z.pos m)%Z in
      let v := if (0 <=? e)%Z then (a * 2 ^ e)%Z
               else Z_div_half_even a (2 ^ (- e)) in
      if s then (- v)%Z else v
  | _ => 0%Z
  end.

Definition float_ceil (x : float) : Z :=
  match Prim2SF x with
  | S754_finite s m e =>
      let a := if s then Z.neg m else Z.pos m in
      if (0 <=? e)%Z then (a * 2 ^ e)%Z
      else (- ((- a) / 2 ^ (- e)))%Z
  | _ => 0%Z
  end.

#[export] Instance float_Arith : Arith float := {|
  nzero := 0%float;
  nadd := PrimFloat.add;
  nsub := PrimFloat.sub;
  nmul := PrimFloat.mul;
  ndiv := PrimFloat.div;
  nneg := PrimFloat.opp;
  nsqrt := PrimFloat.sqrt;
  nltb := PrimFloat.ltb;
  nleb := PrimFloat.leb;
  neqb := PrimFloat.eqb;
  nfinite := PrimFloat.is_finite;
  of_nat := fun n => PrimFloat.of_uint63 (Uint63.of_Z (Z.of_nat n));
  round1 := float_round1;
  nceil := float_ceil;
  lit_1e_3 := 0x1.0624dd2f1a9fcp-10%float;
  lit_1e_6 := 0x1.0c6f7a0b5ed8dp-20%float
|}.
End Float.

Import Float.

(** ** The exact instance: real numbers *)

(** This instance is the idealisation of the code in exact arithmetic: no
    operation rounds, every number is finite, and a theorem stated at [R]
    speaks of the algorithm, not of its binary64 run.  Where the two differ
    on ordinary inputs, the difference is shown on the [float] instance next
    to the theorem.

    Division by zero is the one operation where [R] and NumPy part ways in
    kind: NumPy returns an infinity, [Rdiv] returns [0].  The only divisor
    that can be zero is the average speed, and the knots that result are
    rejected by [CubicSpline] in both readings (not finite there, not
    increasing here). *)

Module Real.
Definition Rltb (x y : R) : bool := if Rlt_dec x y then true else false.
Definition Rleb (x y : R) : bool := if Rle_dec x y then true else false.
Definition Reqb (x y : R) : bool := if Req_dec_T x y then true else false.

(** Nearest integer, ties to even. *)
Definition R_half_even (y : R) : Z :=
  let f := Int_part y in
  let r := (y - IZR f)%R in
  if Rlt_dec r (1 / 2) then f
  else if Rlt_dec (1 / 2) r then (f + 1)%Z
  else if Z.even f then f else (f + 1)%Z.

(** [round(x, 1)] as a number of tenths. *)
Definition R_round1 (x : R) : Z := R_half_even (10 * x).

Definition R_ceil (x : R) : Z := (- Int_part (- x))%Z.

#[export] Instance R_Arith : Arith R := {|
  nzero := 0%R;
  nadd := Rplus;
  nsub := Rminus;
  nmul := Rmult;
  ndiv := Rdiv;
  nneg := Ropp;
  nsqrt := sqrt;
  nltb := Rltb;
  nleb := Rleb;
  neqb := Reqb;
  nfinite := fun _ => true;
  of_nat := INR;
  round1 := R_round1;
  nceil := R_ceil;
  lit_1e_3 := (1 / 1000)%R;
  lit_1e_6 := (1 / 1000000)%R
|}.
End Real.

Import Real.

(** ** Vocabulary of the specification *)

Section planner_vocabulary.
Context {num : Type} `{!Arith num}.
Local Open Scope num_scope.

(** The position reached from [p] by the offset [m]. *)
Definition padd (p m : pos num) : pos num :=
  let '(x, y, z) := p in
  let '(dx, dy, dz) := m in
  (x + dx, y + dy, z + dz).

(** The planner's two tests on a candidate position. *)
Definition valid (env : Environment num) (p : pos num) : Prop :=
  is_outside env p = false /\ is_collide env p = false.

Definition pos_key (p : pos num) : Z * Z * Z :=
  let '(x, y, z) := p in (round1 x, round1 y, round1 z).

Variable env : Environment num.
Variable start_pos : pos num.
Variable step_size : num.

(** A node whose parent links lead back to the start node through valid
    single moves. *)
Inductive linked : Node num -> Prop :=
  | linked_start n :
      node_parent n = None -> get_pos n = start_pos -> linked n
  | linked_child n parent m :
      node_parent n = Some parent -> linked parent ->
      m ∈ movements step_size ->
      get_pos n = padd (get_pos parent) m ->
      valid env (get_pos n) ->
      linked n.

(** [walk p l]: the positions [l] are visited in this order from [p], each
    by one move to a valid position. *)
Inductive walk : pos num -> list (pos num) -> Prop :=
  | walk_nil p : walk p []
  | walk_cons p m l :
      m ∈ movements step_size -> valid env (padd p m) ->
      walk (padd p m) l -> walk p (padd p m :: l).

(** The lattice positions that valid moves reach from the start. *)
Inductive reachable : pos num -> Prop :=
  | reachable_start : reachable start_pos
  | reachable_move p m :
      reachable p -> m ∈ movements step_size -> valid env (padd p m) ->
      reachable (padd p m).

(** No reachable position passes the planner's goal test. *)
Definition goal_unreachable (goal_pos : pos num) : Prop :=
  forall p, reachable p -> (get_dist p goal_pos <? step_size) = false.
End planner_vocabulary.

(** A coordinate [v] rounded to a lattice of resolution [s], in the words of
    the specification: the nearest multiple of [s]. *)
Definition round_to_resolution (s v : R) : R :=
  (IZR (Real.R_half_even (v / s)) * s)%R.

(** A vector is increasing when every entry of [np.diff] is positive. *)
Definition increasing (x : list R) : Prop :=
  Forall (fun d => (0 < d)%R) (np_diff x).

(** ** Concrete environments and inputs *)

Module Examples.
Import Float.
Local Open Scope float_scope.

(** The boundary [[0,10]^3]. *)
Definition outside_box (p : pos float) : bool :=
  let '(x, y, z) := p in
  (x <? 0) || (10 <? x) || (y <? 0) || (10 <? y) || (z <? 0) || (10 <? z).

(** No obstacle. *)
Definition free_env : Environment float :=
  {| is_outside := outside_box; is_collide := fun _ => false |}.

(** One obstacle, a ball of radius [0.25] around the origin. *)
Definition ball_env : Environment float :=
  {| is_outside := outside_box;
     is_collide := fun p => PrimFloat.ltb (get_dist p (0, 0, 0)) 0.25 |}.

(** Every position is blocked. *)
Definition blocked_env : Environment float :=
  {| is_outside := outside_box; is_collide := fun _ => true |}.

(** The same blocked box over the reals. *)
Definition R_blocked_env : Environment R :=
  {| is_outside := fun '(x, y, z) =>
       negb (Real.Rleb 0 x && Real.Rleb x 10 && Real.Rleb 0 y && Real.Rleb y 10
             && Real.Rleb 0 z && Real.Rleb z 10);
     is_collide := fun _ => true |}.

(** Over the reals: everything is blocked except the position [(1,0,0)]. *)
Definition R_gap_env : Environment R :=
  {| is_outside := fun _ => false;
     is_collide := fun '(x, y, z) =>
       negb (Real.Reqb x 1 && Real.Reqb y 0 && Real.Reqb z 0) |}.

(** Over the reals: everything is blocked except the positions [(1,0,0)] and
    [(0,1,0)]. *)
Definition R_fork_env : Environment R :=
  {| is_outside := fun _ => false;
     is_collide := fun '(x, y, z) =>
       negb ((Real.Reqb x 1 && Real.Reqb y 0 && Real.Reqb z 0)
             || (Real.Reqb x 0 && Real.Reqb y 1 && Real.Reqb z 0)) |}.
End Examples.

(** ** Further vocabulary *)

(** [adjacent P l]: [P] relates every element of [l] to the next one. *)
Definition adjacent {A : Type} (P : A -> A -> Prop) (l : list A) : Prop :=
  forall i a b, l !! i = Some a -> l !! S i = Some b -> P a b.

Section further_vocabulary.
Context {num : Type} `{!Arith num}.
Local Open Scope num_scope.

(** The test of the preprocessing mask: [q] lies more than [1e-3] away from
    [p]. *)
Definition far (p q : pos num) : Prop :=
  (lit_1e_3 <? norm (psub q p)) = true.

(** The preprocessing mask read as a loop over the input: a point is kept
    when it is far from the input point before it. *)
Fixpoint keep_far (p : pos num) (l : list (pos num)) : list (pos num) :=
  match l with
  | [] => []
  | q :: l' =>
      if lit_1e_3 <? norm (psub q p) then q :: keep_far q l' else keep_far q l'
  end.

(** The search state after [k] turns of the loop, if the loop has not
    returned before. *)
Fixpoint a_star_state (env : Environment num) (goal_pos : pos num)
    (step_size : num) (k : nat) (st : search_state) : option search_state :=
  match k with
  | O => Some st
  | S k' =>
      match a_star_step env goal_pos step_size st with
      | Continue st' => a_star_state env goal_pos step_size k' st'
      | Done _ => None
      end
  end.

(** The state in which [a_star_search] enters the loop. *)
Definition initial_state (start_pos goal_pos : pos num) : search_state :=
  {| open_list := heappush Node_lt [] (start_node_of start_pos goal_pos);
     closed_set := ∅ |}.

(** The bookkeeping of a node: [h] is the distance to the goal, [f] is
    [g + h], and [g] is [0] at a root and otherwise the parent's [g] plus the
    length of the offset that leads from the parent to the node. *)
Inductive costed (goal_pos : pos num) (step_size : num) : Node num -> Prop :=
  | costed_root n :
      node_parent n = None ->
      node_g n = 0 ->
      node_h n = get_dist (get_pos n) goal_pos ->
      node_f n = node_g n + node_h n ->
      costed goal_pos step_size n
  | costed_child n parent m :
      node_parent n = Some parent ->
      costed goal_pos step_size parent ->
      m ∈ movements step_size ->
      get_pos n = padd (get_pos parent) m ->
      node_g n = node_g parent + nsqrt (sq m.1.1 + sq m.1.2 + sq m.2) ->
      node_h n = get_dist (get_pos n) goal_pos ->
      node_f n = node_g n + node_h n ->
      costed goal_pos step_size n.

(** The positions of the proper ancestors of a node, nearest first. *)
Definition ancestors (n : Node num) : list (pos num) :=
  match node_parent n with
  | Some parent => backtrack parent
  | None => []
  end.
End further_vocabulary.

(** The heap shape of [heapq]: no item is smaller than its parent, the
    parent of position [i] being position [(i - 1) / 2]. *)
Definition heap_ordered {A : Type} (lt : A -> A -> bool) (heap : list A) : Prop :=
  forall i child parent,
    (0 < i)%nat -> heap !! i = Some child ->
    heap !! ((i - 1) / 2)%nat = Some parent ->
    lt child parent = false.

(** ** Tactics for the real instance *)

(** Rewrite the operations of the interface into those of [R]. *)
Ltac R_ops :=
  change (@nzero R R_Arith) with 0%R in *;
  change (@nadd R R_Arith) with Rplus in *;
  change (@nsub R R_Arith) with Rminus in *;
  change (@nmul R R_Arith) with Rmult in *;
  change (@ndiv R R_Arith) with Rdiv in *;
  change (@nneg R R_Arith) with Ropp in *;
  change (@nsqrt R R_Arith) with sqrt in *;
  change (@nltb R R_Arith) with Rltb in *;
  change (@nleb R R_Arith) with Rleb in *;
  change (@neqb R R_Arith) with Reqb in *;
  change (@of_nat R R_Arith) with INR in *;
  change (@round1 R R_Arith) with R_round1 in *;
  change (@nceil R R_Arith) with R_ceil in *;
  change (@lit_1e_3 R R_Arith) with (1 / 1000)%R in *;
  change (@lit_1e_6 R R_Arith) with (1 / 1000000)%R in *.

(** Decide the comparisons of closed rational terms. *)
Ltac R_tests :=
  unfold Rltb, Rleb, Reqb;
  repeat match goal with
  | |- context [Rlt_dec ?a ?b] => destruct (Rlt_dec a b); [try lra|try lra]
  | |- context [Rle_dec ?a ?b] => destruct (Rle_dec a b); [try lra|try lra]
  | |- context [Req_dec_T ?a ?b] => destruct (Req_dec_T a b); [try lra|try lra]
  end.

(** ** Facts about the heap operations *)

Section heapq_facts.
Context {A : Type} (lt : A -> A -> bool).
Implicit Types (heap : list A) (P : A -> Prop).

(** The fuel given to the two inner loops is enough: more changes nothing. *)
Lemma siftdown_loop_fuel fuel1 fuel2 heap newitem startpos pos :
  pos <= fuel1 -> pos <= fuel2 ->
  _siftdown_loop lt fuel1 heap newitem startpos pos
  = _siftdown_loop lt fuel2 heap newitem startpos pos.
Proof.
  revert fuel2 heap pos.
  induction fuel1 as [|fuel1 IH]; intros [|fuel2] heap pos H1 H2;
    cbn [_siftdown_loop]; try done; try (case_decide; [lia|done]).
  case_decide; [|done].
  destruct (heap !! _) as [parent|]; [|done].
  destruct (lt newitem parent); [|done].
  assert ((pos - 1) / 2 <= pos - 1) by (apply Nat.Div0.div_le_upper_bound; lia).
  apply IH; lia.
Qed.

Lemma siftup_loop_fuel fuel1 fuel2 heap pos :
  length heap - pos <= fuel1 -> length heap - pos <= fuel2 ->
  _siftup_loop lt fuel1 heap pos = _siftup_loop lt fuel2 heap pos.
Proof.
  revert fuel2 heap pos.
  induction fuel1 as [|fuel1 IH]; intros [|fuel2] heap pos H1 H2;
    cbn [_siftup_loop]; try done; try (case_decide; [lia|done]).
  case_decide as Hchild; [|done].
  set (childpos := match heap !! (2 * pos + 1) with
                   | Some l => _ | None => _ end).
  assert (2 * pos + 1 <= childpos) as Hle.
  { unfold childpos. destruct (heap !! (2 * pos + 1)); [|done].
    destruct (heap !! (2 * pos + 1 + 1)); [|done].
    destruct (negb _); lia. }
  destruct (heap !! childpos) as [c|]; [|done].
  apply IH; rewrite length_insert; lia.
Qed.

Lemma length_siftdown_loop fuel heap newitem startpos pos :
  length (_siftdown_loop lt fuel heap newitem startpos pos) = length heap.
Proof.
  revert heap pos.
  induction fuel as [|fuel IH]; intros heap pos; simpl.
  - by rewrite length_insert.
  - case_decide; [|by rewrite length_insert].
    destruct (heap !! _) as [parent|]; [|by rewrite length_insert].
    destruct (lt newitem parent); rewrite ?IH, !length_insert; done.
Qed.

Lemma Forall_siftdown_loop P fuel heap newitem startpos pos :
  Forall P heap -> P newitem ->
  Forall P (_siftdown_loop lt fuel heap newitem startpos pos).
Proof.
  revert heap pos.
  induction fuel as [|fuel IH]; intros heap pos Hheap Hnew; simpl.
  - by apply Forall_insert.
  - case_decide; [|by apply Forall_insert].
    destruct (heap !! _) as [parent|] eqn:Hparent; [|by apply Forall_insert].
    destruct (lt newitem parent); [|by apply Forall_insert].
    apply IH; [|done].
    apply Forall_insert; [done|].
    by eapply Forall_lookup_1.
Qed.

Lemma length_siftdown heap startpos pos :
  length (_siftdown lt heap startpos pos) = length heap.
Proof.
  unfold _siftdown. destruct (heap !! pos); [|done].
  apply length_siftdown_loop.
Qed.

Lemma Forall_siftdown P heap startpos pos :
  Forall P heap -> Forall P (_siftdown lt heap startpos pos).
Proof.
  intros Hheap. unfold _siftdown.
  destruct (heap !! pos) as [newitem|] eqn:Hnew; [|done].
  apply Forall_siftdown_loop; [done|].
  by eapply Forall_lookup_1.
Qed.

Lemma siftup_loop_spec P fuel heap pos :
  Forall P heap ->
  length (_siftup_loop lt fuel heap pos).1 = length heap /\
  Forall P (_siftup_loop lt fuel heap pos).1.
Proof.
  revert heap pos.
  induction fuel as [|fuel IH]; intros heap pos Hheap; simpl; [done|].
  case_decide; [|done].
  destruct (heap !! match _ with Some _ => _ | None => _ end) as [c|] eqn:Hc;
    [|done].
  edestruct (IH (<[pos := c]> heap)) as [Hlen HP].
  { apply Forall_insert; [done|]. by eapply Forall_lookup_1. }
  split; [|exact HP].
  by rewrite Hlen, length_insert.
Qed.

Lemma length_siftup heap pos : length (_siftup lt heap pos) = length heap.
Proof.
  unfold _siftup. destruct (heap !! pos) as [newitem|]; [|done].
  destruct (siftup_loop_spec (fun _ => True) (length heap) heap pos) as [Hlen _].
  { by apply Forall_forall. }
  destruct (_siftup_loop _ _ _ _) as [heap' pos']; simpl in *.
  by rewrite length_siftdown, length_insert.
Qed.

Lemma Forall_siftup P heap pos :
  Forall P heap -> Forall P (_siftup lt heap pos).
Proof.
  intros Hheap. unfold _siftup.
  destruct (heap !! pos) as [newitem|] eqn:Hnew; [|done].
  destruct (siftup_loop_spec P (length heap) heap pos Hheap) as [_ HP].
  destruct (_siftup_loop _ _ _ _) as [heap' pos']; simpl in *.
  apply Forall_siftdown, Forall_insert; [done|].
  exact (Forall_lookup_1 _ _ _ _ Hheap Hnew).
Qed.

Lemma length_heappush heap item :
  length (heappush lt heap item) = S (length heap).
Proof.
  unfold heappush. rewrite length_siftdown, length_app. simpl. lia.
Qed.

Lemma Forall_heappush P heap item :
  Forall P heap -> P item -> Forall P (heappush lt heap item).
Proof.
  intros Hheap Hitem. apply Forall_siftdown, Forall_app. by repeat constructor.
Qed.

Lemma last_removelast heap lastelt :
  last heap = Some lastelt -> heap = removelast heap ++ [lastelt].
Proof.
  induction heap as [|a [|b heap] IH]; intros Hlast; simplify_eq/=; [done|].
  f_equal. by apply IH.
Qed.

Lemma heappop_None heap : heappop lt heap = None <-> heap = [].
Proof.
  unfold heappop. split.
  - destruct (last heap) eqn:Hlast.
    + by destruct (removelast heap).
    + intros _. by apply last_None.
  - by intros ->.
Qed.

Lemma length_heappop heap item heap' :
  heappop lt heap = Some (item, heap') -> length heap = S (length heap').
Proof.
  unfold heappop. intros Hpop.
  destruct (last heap) as [lastelt|] eqn:Hlast; [|done].
  rewrite (last_removelast _ _ Hlast), length_app. simpl.
  destruct (removelast heap) as [|returnitem rest]; simplify_eq/=; [done|].
  rewrite length_siftup. simpl. lia.
Qed.

Lemma Forall_heappop P heap item heap' :
  heappop lt heap = Some (item, heap') ->
  Forall P heap -> P item /\ Forall P heap'.
Proof.
  unfold heappop. intros Hpop Hheap.
  destruct (last heap) as [lastelt|] eqn:Hlast; [|done].
  rewrite (last_removelast _ _ Hlast) in Hheap.
  apply Forall_app in Hheap as [Hinit Hlastelt].
  rewrite Forall_singleton in Hlastelt.
  destruct (removelast heap) as [|returnitem rest]; simplify_eq/=.
  { split; [done|constructor]. }
  apply Forall_cons in Hinit as [Hret Hrest].
  split; [done|].
  apply Forall_siftup. by constructor.
Qed.
End heapq_facts.

(** ** Facts about the planner, for any numeric instance *)

Section planner_facts.
Context {num : Type} `{!Arith num}.
Local Open Scope num_scope.
Implicit Types (p q m : pos num) (n : Node num) (l : list (pos num)).

Variable env : Environment num.
Variable goal_pos start_pos : pos num.
Variable step_size : num.

Local Abbreviation linked := (linked env start_pos step_size).
Local Abbreviation walk := (walk env step_size).
Local Abbreviation reachable := (reachable env start_pos step_size).

Lemma node_key_pos_key n : node_key n = pos_key (get_pos n).
Proof. reflexivity. Qed.

Lemma length_bind_le {A B : Type} (f : A -> list B) (xs : list A) (k : nat) :
  (forall x, (length (f x) <= k)%nat) -> (length (xs ≫= f) <= length xs * k)%nat.
Proof.
  intros Hf. induction xs as [|x xs IH]; csimpl; [lia|].
  rewrite length_app. specialize (Hf x). lia.
Qed.

Lemma length_movements : (length (movements step_size) <= 27)%nat.
Proof.
  unfold movements.
  etrans; [apply (length_bind_le _ _ 9)|simpl; lia].
  intros dx. etrans; [apply (length_bind_le _ _ 3)|simpl; lia].
  intros dy. etrans; [apply (length_bind_le _ _ 1)|simpl; lia].
  intros dz. destruct (_ && _); simpl; lia.
Qed.

(** *** Expansion *)

Lemma length_try_move current open m :
  (length (try_move env goal_pos current open m) <= S (length open))%nat.
Proof.
  unfold try_move. destruct m as [[dx dy] dz].
  destruct (is_outside env _); [lia|].
  destruct (is_collide env _); [lia|].
  rewrite length_heappush. lia.
Qed.

Lemma Forall_linked_try_move current open m :
  linked current -> m ∈ movements step_size ->
  Forall linked open -> Forall linked (try_move env goal_pos current open m).
Proof.
  intros Hcur Hm Hopen. unfold try_move. destruct m as [[dx dy] dz].
  destruct (is_outside env _) eqn:Hout; [done|].
  destruct (is_collide env _) eqn:Hcol; [done|].
  apply Forall_heappush; [done|].
  eapply (linked_child _ _ _ _ current (dx, dy, dz)); [done..| |];
    [by destruct current|split; assumption].
Qed.

Lemma try_move_outside current open m :
  is_outside env (padd (get_pos current) m) = true ->
  try_move env goal_pos current open m = open.
Proof. destruct m as [[dx dy] dz]. unfold try_move. simpl. by intros ->. Qed.

Lemma try_move_collide current open m :
  is_collide env (padd (get_pos current) m) = true ->
  try_move env goal_pos current open m = open.
Proof.
  destruct m as [[dx dy] dz]. unfold try_move. simpl. intros ->.
  by destruct (is_outside env _).
Qed.

Lemma try_move_valid current open m :
  valid env (padd (get_pos current) m) ->
  try_move env goal_pos current open m
  = heappush Node_lt open
      (new_Node (node_x current + m.1.1) (node_y current + m.1.2)
         (node_z current + m.2)
         (node_g current + nsqrt (sq m.1.1 + sq m.1.2 + sq m.2))
         (get_dist (padd (get_pos current) m) goal_pos) (Some current)).
Proof.
  destruct m as [[dx dy] dz]. unfold try_move. simpl. by intros [-> ->].
Qed.

Lemma length_foldl_try_move current ms open :
  (length (foldl (try_move env goal_pos current) open ms)
   <= length open + length ms)%nat.
Proof.
  revert open. induction ms as [|m ms IH]; intros open; simpl; [lia|].
  etrans; [apply IH|]. pose proof (length_try_move current open m). lia.
Qed.

Lemma Forall_linked_foldl_try_move current ms open :
  linked current -> Forall (fun m => m ∈ movements step_size) ms ->
  Forall linked open ->
  Forall linked (foldl (try_move env goal_pos current) open ms).
Proof.
  intros Hcur Hms. revert open.
  induction Hms as [|m ms Hm Hms IH]; intros open Hopen; simpl; [done|].
  by apply IH, Forall_linked_try_move.
Qed.

Lemma length_expand current open :
  (length (expand env goal_pos step_size current open) <= length open + 27)%nat.
Proof.
  unfold expand. etrans; [apply length_foldl_try_move|].
  pose proof length_movements. lia.
Qed.

Lemma Forall_linked_expand current open :
  linked current -> Forall linked open ->
  Forall linked (expand env goal_pos step_size current open).
Proof.
  intros. apply Forall_linked_foldl_try_move; [done| |done].
  by apply Forall_forall.
Qed.

(** *** One turn of the loop *)

Lemma a_star_step_Done st path :
  a_star_step env goal_pos step_size st = Done path ->
  Forall linked (open_list st) ->
  path = [] \/
  exists current,
    linked current /\
    (get_dist (get_pos current) goal_pos <? step_size) = true /\
    path = reconstruct_path (goal_node_from goal_pos current).
Proof.
  unfold a_star_step. intros Hstep Hopen.
  destruct (heappop _ _) as [[current open']|] eqn:Hpop; [|left; congruence].
  destruct (Forall_heappop _ _ _ _ _ Hpop Hopen) as [Hcur _].
  destruct (_ <? _) eqn:Hgoal.
  - right. exists current. by simplify_eq.
  - by case_bool_decide.
Qed.

Lemma a_star_step_Continue st st' :
  a_star_step env goal_pos step_size st = Continue st' ->
  Forall linked (open_list st) ->
  Forall linked (open_list st') /\
  ((closed_set st' = closed_set st /\
    length (open_list st) = S (length (open_list st'))) \/
   (exists current,
      linked current /\ (node_key current ∉ closed_set st) /\
      closed_set st' = {[ node_key current ]} ∪ closed_set st /\
      (S (length (open_list st')) <= length (open_list st) + 27)%nat)).
Proof.
  unfold a_star_step. intros Hstep Hopen.
  destruct (heappop _ _) as [[current open']|] eqn:Hpop; [|done].
  destruct (Forall_heappop _ _ _ _ _ Hpop Hopen) as [Hcur Hopen'].
  apply length_heappop in Hpop.
  destruct (_ <? _); [done|].
  case_bool_decide as Hkey; simplify_eq/=.
  - split; [done|]. by left.
  - split; [by apply Forall_linked_expand|].
    right. exists current. repeat split; [done..|].
    pose proof (length_expand current open'). lia.
Qed.

Lemma a_star_loop_Returned fuel st path :
  a_star_loop env goal_pos step_size fuel st = Returned path ->
  Forall linked (open_list st) ->
  path = [] \/
  exists current,
    linked current /\
    (get_dist (get_pos current) goal_pos <? step_size) = true /\
    path = reconstruct_path (goal_node_from goal_pos current).
Proof.
  revert st. induction fuel as [|fuel IH]; intros st Hloop Hopen; [done|].
  simpl in Hloop.
  destruct (a_star_step _ _ _ st) as [path'|st'] eqn:Hstep.
  - simplify_eq. by eapply a_star_step_Done.
  - apply (IH st' Hloop). by eapply a_star_step_Continue.
Qed.

(** A result, once returned, does not depend on the fuel. *)
Lemma a_star_loop_more_fuel fuel fuel' st path :
  a_star_loop env goal_pos step_size fuel st = Returned path ->
  (fuel <= fuel')%nat ->
  a_star_loop env goal_pos step_size fuel' st = Returned path.
Proof.
  revert fuel' st. induction fuel as [|fuel IH]; intros fuel' st Hloop Hle; [done|].
  destruct fuel' as [|fuel']; [lia|]. simpl in Hloop |- *.
  destruct (a_star_step _ _ _ st) as [path'|st']; [done|].
  apply IH; [done|lia].
Qed.

Lemma a_star_loop_not_Raised fuel st e :
  a_star_loop env goal_pos step_size fuel st <> Raised e.
Proof.
  revert st. induction fuel as [|fuel IH]; intros st; simpl; [done|].
  by destruct (a_star_step _ _ _ st).
Qed.

(** *** The parent chain *)

Lemma walk_snoc p l q m :
  walk p l -> last (p :: l) = Some q ->
  m ∈ movements step_size -> valid env (padd q m) ->
  walk p (l ++ [padd q m]).
Proof.
  intros Hwalk. revert q.
  induction Hwalk as [p|p m' l Hm' Hvalid Hwalk IH]; intros q Hlast Hm Hq.
  - simplify_eq/=. constructor; [done..|constructor].
  - simpl. constructor; [done..|]. apply IH; [|done..].
    by rewrite last_cons_cons in Hlast.
Qed.

Lemma linked_backtrack n :
  linked n ->
  exists mids,
    reverse (backtrack n) = start_pos :: mids /\
    walk start_pos mids /\
    last (start_pos :: mids) = Some (get_pos n).
Proof.
  induction 1 as [n Hparent Hpos|n parent m Hparent _ IH Hm Hpos Hvalid].
  - exists []. rewrite <- Hpos. destruct n; simpl in Hparent |- *.
    rewrite Hparent. split; [done|]. split; [constructor|done].
  - destruct IH as (mids & Hrev & Hwalk & Hlast).
    exists (mids ++ [get_pos n]).
    replace (backtrack n) with (get_pos n :: backtrack parent)
      by (destruct n; simplify_eq/=; done).
    rewrite reverse_cons, Hrev. split; [done|]. split.
    + rewrite Hpos in *. by eapply walk_snoc.
    + by rewrite app_comm_cons, last_snoc.
Qed.

Lemma linked_reachable n : linked n -> reachable (get_pos n).
Proof.
  induction 1 as [n _ Hpos|n parent m _ _ IH Hm Hpos Hvalid].
  - rewrite Hpos. constructor.
  - rewrite Hpos in *. by constructor.
Qed.

Lemma pos_eta p : (p.1.1, p.1.2, p.2) = p.
Proof. by destruct p as [[x y] z]. Qed.

Lemma reconstruct_path_goal current :
  reconstruct_path (goal_node_from goal_pos current)
  = reverse (backtrack current) ++ [goal_pos].
Proof.
  unfold reconstruct_path, goal_node_from. simpl.
  rewrite reverse_cons. unfold get_pos. simpl. by rewrite pos_eta.
Qed.

Lemma walk_valid p l : walk p l -> Forall (valid env) l.
Proof. induction 1; by constructor. Qed.

Lemma walk_moves p l i a b :
  walk p l -> (p :: l) !! i = Some a -> (p :: l) !! S i = Some b ->
  exists m, m ∈ movements step_size /\ b = padd a m.
Proof.
  intros Hwalk. revert i.
  induction Hwalk as [p|p m l Hm _ _ IH]; intros i Ha Hb.
  - by destruct i.
  - destruct i as [|i]; simplify_eq/=; [by exists m|]. by eapply IH.
Qed.

(** *** The shape of every result *)

Lemma Forall_linked_initial :
  Forall linked (heappush Node_lt [] (start_node_of start_pos goal_pos)).
Proof.
  apply Forall_heappush; [constructor|].
  apply linked_start; [done|]. apply pos_eta.
Qed.

Lemma a_star_search_Returned fuel path :
  a_star_search env start_pos goal_pos step_size fuel = Returned path ->
  path = [] \/
  exists mids last_pos,
    path = start_pos :: mids ++ [goal_pos] /\
    walk start_pos mids /\
    last (start_pos :: mids) = Some last_pos /\
    reachable last_pos /\
    (get_dist last_pos goal_pos <? step_size) = true.
Proof.
  unfold a_star_search. intros Hsearch.
  apply a_star_loop_Returned in Hsearch as [->|(current & Hcur & Hgoal & ->)];
    [by left| |apply Forall_linked_initial].
  right. rewrite reconstruct_path_goal.
  destruct (linked_backtrack _ Hcur) as (mids & -> & Hwalk & Hlast).
  exists mids, (get_pos current). repeat split; [done..| |done].
  by apply linked_reachable.
Qed.

Lemma a_star_search_not_Raised fuel e :
  a_star_search env start_pos goal_pos step_size fuel <> Raised e.
Proof.
  apply a_star_loop_not_Raised.
Qed.
End planner_facts.

(** ** Termination on a finite set of cells *)

Section planner_termination.
Context {num : Type} `{!Arith num}.
Local Open Scope num_scope.

Variable env : Environment num.
Variable goal_pos start_pos : pos num.
Variable step_size : num.

(** [K] holds the key of every position inside the boundary. *)
Variable K : gset (Z * Z * Z).
Hypothesis K_covers : forall p, is_outside env p = false -> pos_key p ∈ K.

Local Abbreviation linked := (linked env start_pos step_size).
Local Abbreviation cells := ({[ pos_key start_pos ]} ∪ K : gset (Z * Z * Z)).
Local Abbreviation measure st :=
  (27 * size (cells ∖ closed_set st) + length (open_list st))%nat.

Lemma linked_key n : linked n -> node_key n ∈ cells.
Proof.
  rewrite node_key_pos_key.
  destruct 1 as [n _ ->|n parent m _ _ _ _ [Hout _]]; [set_solver|].
  apply K_covers in Hout. set_solver.
Qed.

Lemma size_cells_insert (k : Z * Z * Z) (closed : gset (Z * Z * Z)) :
  k ∈ cells -> k ∉ closed ->
  (S (size (cells ∖ ({[ k ]} ∪ closed))) <= size (cells ∖ closed))%nat.
Proof.
  intros Hk Hclosed. apply (subset_size (C:=gset (Z * Z * Z))). set_solver.
Qed.

Lemma a_star_step_measure st st' :
  a_star_step env goal_pos step_size st = Continue st' ->
  Forall linked (open_list st) -> closed_set st ⊆ cells ->
  Forall linked (open_list st') /\ closed_set st' ⊆ cells /\
  (measure st' < measure st)%nat.
Proof.
  intros Hstep Hopen Hclosed.
  destruct (a_star_step_Continue _ _ _ _ _ _ Hstep Hopen)
    as [Hopen' [[Heq Hlen]|(current & Hcur & Hfresh & Heq & Hlen)]];
    (split; [done|]); rewrite Heq.
  - split; [done|]. lia.
  - apply linked_key in Hcur.
    split; [set_solver|].
    pose proof (size_cells_insert _ _ Hcur Hfresh). lia.
Qed.

Lemma a_star_loop_finishes fuel st :
  Forall linked (open_list st) -> closed_set st ⊆ cells ->
  (measure st < fuel)%nat ->
  exists path, a_star_loop env goal_pos step_size fuel st = Returned path.
Proof.
  revert st. induction fuel as [|fuel IH]; intros st Hopen Hclosed Hfuel; [lia|].
  simpl. destruct (a_star_step _ _ _ st) as [path|st'] eqn:Hstep; [by eexists|].
  destruct (a_star_step_measure _ _ Hstep Hopen Hclosed) as (? & ? & ?).
  apply IH; [done..|lia].
Qed.

Lemma a_star_search_finishes fuel :
  (27 * size K + 29 <= fuel)%nat ->
  exists path, a_star_search env start_pos goal_pos step_size fuel = Returned path.
Proof.
  intros Hfuel. apply a_star_loop_finishes; cbn [open_list closed_set].
  - apply Forall_linked_initial.
  - set_solver.
  - rewrite length_heappush, difference_empty_L, size_union_alt, size_singleton.
    assert (size (K ∖ {[pos_key start_pos]}) <= size K)%nat
      by (apply (subseteq_size (C:=gset (Z * Z * Z))); set_solver).
    simpl. lia.
Qed.

Lemma a_star_search_unreachable fuel :
  goal_unreachable env start_pos step_size goal_pos ->
  (27 * size K + 29 <= fuel)%nat ->
  a_star_search env start_pos goal_pos step_size fuel = Returned [].
Proof.
  intros Hgoal Hfuel.
  destruct (a_star_search_finishes fuel Hfuel) as [path Hpath].
  rewrite Hpath. f_equal.
  apply a_star_search_Returned in Hpath
    as [->|(mids & last_pos & _ & _ & _ & Hreach & Htest)]; [done|].
  apply Hgoal in Hreach. congruence.
Qed.
End planner_termination.

(** ** Facts about the real instance *)

Section real_facts.
Local Open Scope R_scope.
Implicit Types (x y s : R) (p q m : pos R).

Lemma Rltb_true x y : Rltb x y = true <-> x < y.
Proof. unfold Rltb. destruct (Rlt_dec x y); split; (done || lra). Qed.

Lemma Rltb_false x y : Rltb x y = false <-> y <= x.
Proof. unfold Rltb. destruct (Rlt_dec x y); split; (done || lra). Qed.

Lemma Rleb_true x y : Rleb x y = true <-> x <= y.
Proof. unfold Rleb. destruct (Rle_dec x y); split; (done || lra). Qed.

Lemma Rleb_false x y : Rleb x y = false <-> y < x.
Proof. unfold Rleb. destruct (Rle_dec x y); split; (done || lra). Qed.

Lemma Reqb_true x y : Reqb x y = true <-> x = y.
Proof. unfold Reqb. destruct (Req_dec_T x y); split; (done || lra). Qed.

Lemma Reqb_false x y : Reqb x y = false <-> x <> y.
Proof. unfold Reqb. destruct (Req_dec_T x y); split; (done || lra). Qed.

Lemma get_dist_R p q :
  get_dist p q
  = sqrt ((p.1.1 - q.1.1) * (p.1.1 - q.1.1) + (p.1.2 - q.1.2) * (p.1.2 - q.1.2)
          + (p.2 - q.2) * (p.2 - q.2)).
Proof. by destruct p as [[x1 y1] z1], q as [[x2 y2] z2]. Qed.

Lemma get_dist_nonneg p q : 0 <= get_dist p q.
Proof. rewrite get_dist_R. apply sqrt_pos. Qed.

(** With a step that is not positive the goal test never succeeds. *)
Lemma goal_test_nonpositive_step p q s :
  s <= 0 -> nltb (get_dist p q) s = false.
Proof.
  intros Hs. apply Rltb_false. pose proof (get_dist_nonneg p q). lra.
Qed.

Lemma sqrt_scaled k s : 0 <= k -> 0 <= s -> sqrt (k * (s * s)) = s * sqrt k.
Proof.
  intros Hk Hs. rewrite sqrt_mult by nra. rewrite sqrt_square by done. ring.
Qed.

(** The offsets: every component is [-s], [0] or [s], and not all are [0]. *)
Lemma elem_of_movements_R s dx dy dz :
  (dx, dy, dz) ∈ movements s ->
  (dx = - s \/ dx = 0 \/ dx = s) /\
  (dy = - s \/ dy = 0 \/ dy = s) /\
  (dz = - s \/ dz = 0 \/ dz = s) /\
  ~ (dx = 0 /\ dy = 0 /\ dz = 0).
Proof.
  unfold movements. intros Hm.
  apply list_elem_of_bind in Hm as (dx' & Hm & Hdx).
  apply list_elem_of_bind in Hm as (dy' & Hm & Hdy).
  apply list_elem_of_bind in Hm as (dz' & Hm & Hdz).
  destruct (_ && _) eqn:Hzero; [by apply elem_of_nil in Hm|].
  apply list_elem_of_singleton in Hm. simplify_eq.
  repeat split; [set_solver..|].
  intros (-> & -> & ->). R_ops.
  rewrite (proj2 (Reqb_true 0 0)) in Hzero; done.
Qed.

Lemma step_length s p m :
  0 < s -> m ∈ movements s ->
  get_dist p (padd p m) = s \/
  get_dist p (padd p m) = s * sqrt 2 \/
  get_dist p (padd p m) = s * sqrt 3.
Proof.
  intros Hs Hm. destruct p as [[x y] z], m as [[dx dy] dz].
  apply elem_of_movements_R in Hm as (Hdx & Hdy & Hdz & Hnz).
  rewrite get_dist_R. simpl.
  assert (Hlen : forall k, 0 <= k ->
    (x - (x + dx)) * (x - (x + dx)) + (y - (y + dy)) * (y - (y + dy))
      + (z - (z + dz)) * (z - (z + dz)) = k * (s * s) ->
    sqrt ((x - (x + dx)) * (x - (x + dx)) + (y - (y + dy)) * (y - (y + dy))
      + (z - (z + dz)) * (z - (z + dz))) = s * sqrt k).
  { intros k Hk ->. apply sqrt_scaled; lra. }
  destruct Hdx as [-> | [-> | ->]], Hdy as [-> | [-> | ->]], Hdz as [-> | [-> | ->]];
    try (exfalso; apply Hnz; done);
    first
      [ left; rewrite (Hlen 1); [rewrite sqrt_1; ring|lra|ring]
      | right; left; apply Hlen; [lra|ring]
      | right; right; apply Hlen; [lra|ring] ].
Qed.

(** *** Rounding *)

Lemma Rabs_le_between x b : Rabs x <= b -> - b <= x <= b.
Proof. unfold Rabs. destruct (Rcase_abs x); lra. Qed.

Lemma R_half_even_bounds y :
  IZR (R_half_even y) - 1 / 2 <= y <= IZR (R_half_even y) + 1 / 2.
Proof.
  unfold R_half_even. destruct (base_Int_part y) as [Hlo Hhi].
  destruct (Rlt_dec _ _); [lra|].
  destruct (Rlt_dec _ _); [rewrite plus_IZR; lra|].
  destruct (Z.even _); [lra|rewrite plus_IZR; lra].
Qed.

Lemma R_round1_bounds x :
  IZR (R_round1 x) / 10 - 1 / 20 <= x <= IZR (R_round1 x) / 10 + 1 / 20.
Proof. unfold R_round1. pose proof (R_half_even_bounds (10 * x)). lra. Qed.

Lemma R_half_even_unique y (k : Z) :
  IZR k - 1 / 2 < y < IZR k + 1 / 2 -> R_half_even y = k.
Proof.
  intros Hk. pose proof (R_half_even_bounds y) as Hb.
  apply Z.le_antisymm; apply Z.lt_succ_r, lt_IZR; rewrite succ_IZR; lra.
Qed.
End real_facts.

(** ** Facts about the array operations *)

Section array_facts.
Context {num : Type} `{!Arith num}.
Local Open Scope num_scope.

Lemma length_np_diff3 (a : list (pos num)) :
  length (np_diff3 a) = pred (length a).
Proof.
  induction a as [|p [|q a] IH]; [done..|].
  change (np_diff3 (p :: q :: a)) with (psub q p :: np_diff3 (q :: a)).
  cbn [length pred] in IH |- *. by rewrite IH.
Qed.

Lemma length_np_diff (a : list num) : length (np_diff a) = pred (length a).
Proof.
  induction a as [|u [|v a] IH]; [done..|].
  change (np_diff (u :: v :: a)) with ((v - u) :: np_diff (v :: a)).
  cbn [length pred] in IH |- *. by rewrite IH.
Qed.

Lemma lookup_np_diff (a : list num) i u v :
  a !! i = Some u -> a !! S i = Some v -> np_diff a !! i = Some (v - u).
Proof.
  revert i. induction a as [|u' [|v' a] IH]; intros i Hu Hv; [done..|].
  change (np_diff (u' :: v' :: a)) with ((v' - u') :: np_diff (v' :: a)).
  destruct i as [|i]; simplify_eq/=; [done|]. by apply IH.
Qed.

Lemma length_cumsum_from acc (a : list num) :
  length (cumsum_from acc a) = length a.
Proof. revert acc. induction a as [|t a IH]; intros acc; simpl; by rewrite ?IH. Qed.

Lemma length_np_cumsum (a : list num) : length (np_cumsum a) = length a.
Proof. destruct a; simpl; by rewrite ?length_cumsum_from. Qed.

Lemma length_calculate_time_knots (path : list (pos num)) avg_speed :
  path <> [] -> length (_calculate_time_knots path avg_speed) = length path.
Proof.
  intros Hpath. unfold _calculate_time_knots. simpl.
  rewrite length_np_cumsum, !length_fmap, length_np_diff3.
  destruct path; simpl; done.
Qed.

(** The first input waypoint is always kept. *)
Lemma head_deduplicate (raw_path : list (pos num)) :
  head (deduplicate raw_path) = head raw_path.
Proof. by destruct raw_path. Qed.

End array_facts.

(** ** The time knots over the reals *)

Section time_knots_real.
Import Real.
Local Open Scope R_scope.
Implicit Types (x ts : list R) (path : list (pos R)).

Lemma increasing_cons u v x : increasing (u :: v :: x) <-> u < v /\ increasing (v :: x).
Proof.
  unfold increasing.
  change (np_diff (u :: v :: x)) with ((v - u) :: np_diff (v :: x)).
  rewrite Forall_cons. simpl. split; intros [? ?]; split; (done || lra).
Qed.

Lemma increasing_head_lt u x i v :
  increasing (u :: x) -> x !! i = Some v -> u < v.
Proof.
  revert u i. induction x as [|w x IH]; intros u i Hinc Hv; [done|].
  apply increasing_cons in Hinc as [Huw Hinc].
  destruct i as [|i]; simplify_eq/=; [done|].
  etrans; [exact Huw|]. by eapply IH.
Qed.

Lemma increasing_lookup x i j u v :
  increasing x -> x !! i = Some u -> x !! j = Some v -> (i < j)%nat -> u < v.
Proof.
  revert i j. induction x as [|w x IH]; intros i j Hinc Hu Hv Hij; [done|].
  destruct j as [|j]; [lia|]. destruct i as [|i]; simplify_eq/=.
  - by eapply increasing_head_lt.
  - apply (IH i j); [|done..|lia].
    destruct x; [done|]. by apply increasing_cons in Hinc as [_ ?].
Qed.

Lemma increasing_cumsum_from acc ts :
  Forall (fun t => 0 < t) ts -> increasing (acc :: cumsum_from acc ts).
Proof.
  intros Hts. revert acc.
  induction Hts as [|t ts Ht _ IH]; intros acc; [constructor|].
  simpl. apply increasing_cons. split; [simpl; lra|apply IH].
Qed.

Lemma increasing_time_knots path avg_speed :
  0 < avg_speed -> increasing (_calculate_time_knots path avg_speed).
Proof.
  intros Hspeed. unfold _calculate_time_knots.
  match goal with
  | |- increasing (_ :: np_cumsum ?ts) =>
      assert (Forall (fun t => 0 < t) ts) as Hts
  end.
  { rewrite <- !list_fmap_compose. apply Forall_fmap, Forall_forall.
    intros d _. simpl. unfold np_maximum. simpl.
    apply Rdiv_lt_0_compat; [|done].
    destruct (Rltb _ _) eqn:Hlt; [lra|].
    apply Rltb_false in Hlt. lra. }
  destruct Hts as [|t ts Ht Hts]; [constructor|].
  simpl. apply increasing_cons. split; [done|].
  by apply increasing_cumsum_from.
Qed.

End time_knots_real.

(** ** The spline over the reals *)

Section spline_real.
Local Open Scope R_scope.
Implicit Types (x y : list R).

Lemma length_removelast {A : Type} (l : list A) :
  length (removelast l) = pred (length l).
Proof. rewrite removelast_firstn_len. apply length_take_le. lia. Qed.

Lemma length_forward_sweep cp dp (rows : list (R * R * R * R)) :
  length (forward_sweep cp dp rows) = length rows.
Proof.
  revert cp dp. induction rows as [|[[[a b] c] d] rows IH]; intros cp dp; simpl;
    by rewrite ?IH.
Qed.

Lemma length_back_substitution (l : list (R * R)) :
  length (back_substitution l) = length l.
Proof.
  induction l as [|[cp dp] l IH]; simpl; [done|].
  destruct (back_substitution l); simpl in *; by rewrite <- ?IH.
Qed.

Lemma length_solve_banded (upper diag lower b : list R) (n : nat) :
  length upper = n -> length diag = n -> length lower = n -> length b = n ->
  length (solve_banded upper diag lower b) = n.
Proof.
  intros Hupper Hdiag Hlower Hb. unfold solve_banded.
  rewrite length_back_substitution, length_forward_sweep, length_zip_with,
    !length_zip, length_app, length_drop.
  cbn [length]. lia.
Qed.

Lemma existsb_nonpositive_increasing x :
  increasing x -> existsb (fun d => nleb d 0) (np_diff x) = false.
Proof.
  unfold increasing. induction 1 as [|d ds Hd _ IH]; cbn [existsb]; [done|].
  rewrite IH, orb_false_r. apply Rleb_false. exact Hd.
Qed.

Lemma existsb_nonpositive_false (ds : list R) :
  existsb (fun d => nleb d 0) ds = false -> Forall (fun d => 0 < d) ds.
Proof.
  induction ds as [|d ds IH]; cbn [existsb]; intros Hex; [constructor|].
  apply orb_false_elim in Hex as [Hd Hds].
  constructor; [by apply Rleb_false|by apply IH].
Qed.

Lemma existsb_nonpositive_not_increasing x :
  ~ increasing x -> existsb (fun d => nleb d 0) (np_diff x) = true.
Proof.
  intros Hx. destruct (existsb _ _) eqn:Hex; [done|].
  by apply existsb_nonpositive_false in Hex.
Qed.

(** Every real number passes the finiteness test of the knots and values. *)
Lemma forallb_nfinite_R (l : list R) : forallb nfinite l = true.
Proof. by induction l. Qed.

(** The spline is built exactly when the knots are increasing. *)
Lemma CubicSpline_not_increasing x y :
  ~ increasing x -> CubicSpline x y = Raised ValueError.
Proof.
  intros Hx. unfold CubicSpline.
  repeat case_decide; try done.
  rewrite !forallb_nfinite_R. cbn [negb].
  by rewrite existsb_nonpositive_not_increasing.
Qed.

(** On each interval the cubic starts at [y[i]] and, by the Hermite form of
    its coefficients, reaches [y[i+1]] at the end of the interval, whatever
    derivatives the banded solve returned. *)
Lemma CubicSpline_increasing x y :
  (2 <= length x)%nat -> length y = length x -> increasing x ->
  exists c,
    CubicSpline x y = Returned {| pp_c := c; pp_x := x |} /\
    length c = pred (length x) /\
    forall i u v a b,
      x !! i = Some u -> x !! S i = Some v ->
      y !! i = Some a -> y !! S i = Some b ->
      exists c0 c1 c2,
        c !! i = Some (c0, c1, c2, a) /\
        let h := v - u in
        c0 * (h * h * h) + c1 * (h * h) + c2 * h + a = b.
Proof.
  intros Hn Hy Hx. unfold CubicSpline.
  case_decide; [lia|]. case_decide; [done|].
  rewrite !forallb_nfinite_R. cbn [negb].
  rewrite existsb_nonpositive_increasing by done.
  eexists. split; [reflexivity|].
  set (dx := np_diff x). set (slope := zip_with ndiv (np_diff y) dx).
  set (s := solve_banded _ _ _ _).
  assert (length dx = pred (length x)) as Hdx by apply length_np_diff.
  assert (length slope = pred (length x)) as Hslope.
  { unfold slope. rewrite length_zip_with, length_np_diff. lia. }
  assert (length s = length x) as Hs.
  { apply length_solve_banded; simpl;
      rewrite ?length_app, ?length_zip_with, ?length_zip, ?length_drop,
        ?length_removelast, ?Hdx, ?Hslope; simpl; lia. }
  split.
  { unfold hermite_coefficients.
    rewrite length_zip_with, !length_zip, length_drop. lia. }
  intros i u v a b Hu Hv Ha Hb.
  assert (u < v) as Huv by (by eapply (increasing_lookup x i (S i)); [..|lia]).
  assert (dx !! i = Some (v - u)) as Hdxi by exact (lookup_np_diff x i u v Hu Hv).
  assert (slope !! i = Some ((b - a) / (v - u))) as Hslopei.
  { unfold slope. apply lookup_zip_with_Some.
    exists (b - a), (v - u). split; [done|]. split; [|done].
    exact (lookup_np_diff y i a b Ha Hb). }
  destruct (lookup_lt_is_Some_2 s i) as [d0 Hd0].
  { apply lookup_lt_Some in Hv. lia. }
  destruct (lookup_lt_is_Some_2 s (S i)) as [d1 Hd1].
  { apply lookup_lt_Some in Hv. lia. }
  eexists _, _, _. split.
  - unfold hermite_coefficients. apply lookup_zip_with_Some.
    exists (v - u, (b - a) / (v - u)), (d0, d1, a).
    split; [reflexivity|]. split.
    + by apply lookup_zip_Some.
    + apply lookup_zip_Some. split; [|done].
      apply lookup_zip_Some. split; [done|]. by rewrite lookup_drop.
  - simpl. field. lra.
Qed.
End spline_real.

(** ** Evaluating the spline at a knot *)

Section spline_at_knots.
Local Open Scope R_scope.
Implicit Types (x y : list R).

Lemma find_interval_knot x i t k :
  increasing x -> x !! i = Some t -> (S i < length x)%nat ->
  find_interval x t k = (k + i)%nat.
Proof.
  revert i k. induction x as [|x0 [|x1 x] IH]; intros i k Hinc Ht Hlen;
    [done|simpl in Hlen; lia|].
  cbn [find_interval]. R_ops. apply increasing_cons in Hinc as [H01 Hinc].
  destruct i as [|i]; simplify_eq/=.
  - rewrite (proj2 (Rltb_true t x1)) by done. lia.
  - assert (x1 <= t) as Hle.
    { destruct i as [|i]; simplify_eq/=; [lra|].
      left. by eapply increasing_head_lt. }
    rewrite (proj2 (Rltb_false t x1)) by done.
    rewrite (IH i (S k)); [lia|done..|lia].
Qed.

Lemma increasing_lookup_le x i j u v :
  increasing x -> x !! i = Some u -> x !! j = Some v -> (i <= j)%nat -> u <= v.
Proof.
  intros Hinc Hu Hv Hij. destruct (decide (i = j)) as [->|Hne].
  - simplify_eq. lra.
  - left. eapply (increasing_lookup x i j); [done..|lia].
Qed.

(** A spline with the interval property of [CubicSpline_increasing] takes
    the value [y[i]] at the knot [x[i]]. *)
Lemma PPoly_call_knot c x y i t v :
  (2 <= length x)%nat -> length y = length x -> increasing x ->
  (forall i u v a b,
      x !! i = Some u -> x !! S i = Some v ->
      y !! i = Some a -> y !! S i = Some b ->
      exists c0 c1 c2,
        c !! i = Some (c0, c1, c2, a) /\
        let h := v - u in
        c0 * (h * h * h) + c1 * (h * h) + c2 * h + a = b) ->
  x !! i = Some t -> y !! i = Some v ->
  PPoly_call {| pp_c := c; pp_x := x |} t = v.
Proof.
  intros Hn Hy Hinc Hc Ht Hv.
  destruct (lookup_lt_is_Some_2 x 0) as [a Ha]; [lia|].
  destruct (lookup_lt_is_Some_2 x (pred (length x))) as [b Hb]; [lia|].
  assert (a <= t) as Hat.
  { eapply (increasing_lookup_le x 0 i); [done..|lia]. }
  assert (t <= b) as Htb.
  { apply lookup_lt_Some in Ht as Hi.
    eapply (increasing_lookup_le x i (pred (length x))); [done..|lia]. }
  unfold PPoly_call. cbn [pp_x pp_c]. R_ops.
  rewrite head_lookup, Ha, last_lookup, Hb. cbn [from_option Datatypes.id].
  rewrite (proj2 (Rleb_true a t)), (proj2 (Rleb_true t b)) by done.
  cbn [andb negb].
  destruct (Reqb t b) eqn:Heq.
  - (* the last knot: the final interval, evaluated at its right end *)
    apply Reqb_true in Heq. subst b.
    assert (i = pred (length x)) as Hi.
    { apply lookup_lt_Some in Ht as Hi.
      destruct (decide (i = pred (length x))) as [|Hne]; [done|].
      assert (t < t); [|lra].
      eapply (increasing_lookup x i (pred (length x))); [done..|lia]. }
    destruct (lookup_lt_is_Some_2 x (length x - 2)) as [u Hu]; [lia|].
    destruct (lookup_lt_is_Some_2 y (length x - 2)) as [w Hw]; [lia|].
    replace i with (S (length x - 2)) in Ht, Hv by lia.
    destruct (Hc _ _ _ _ _ Hu Ht Hw Hv) as (c0 & c1 & c2 & Hci & Heqn).
    cbn [mbind option_bind]. rewrite Hu, Hci.
    cbn [from_option Datatypes.id fmap option_fmap option_map].
    simpl in Heqn |- *. rewrite <- Heqn. ring.
  - (* an earlier knot: its own interval, evaluated at its left end *)
    apply Reqb_false in Heq.
    assert (S i < length x)%nat as Hi.
    { apply lookup_lt_Some in Ht as Hi.
      destruct (decide (i = pred (length x))) as [->|Hne]; [|lia].
      simplify_eq. }
    rewrite (find_interval_knot x i t 0) by done.
    destruct (lookup_lt_is_Some_2 x (S i)) as [u Hu]; [lia|].
    destruct (lookup_lt_is_Some_2 y (S i)) as [w Hw]; [lia|].
    destruct (Hc _ _ _ _ _ Ht Hu Hv Hw) as (c0 & c1 & c2 & Hci & _).
    cbn [mbind option_bind Nat.add]. rewrite Ht, Hci.
    cbn [from_option Datatypes.id fmap option_fmap option_map].
    simpl. ring.
Qed.
End spline_at_knots.

(** ** Construction and sampling over the reals *)

Section trajectory_real.
Local Open Scope R_scope.
Implicit Types (raw_path : list (pos R)).

Lemma R_ceil_bounds x : x <= IZR (R_ceil x) < x + 1.
Proof.
  unfold R_ceil. rewrite opp_IZR.
  destruct (base_Int_part (- x)) as [Hlo Hhi]. lra.
Qed.

(** With fewer than two points left, the constructor stops before it reads
    the speed. *)
Lemma TrajectoryGenerator_init_degenerate raw_path average_speed :
  (length (deduplicate raw_path) < 2)%nat ->
  TrajectoryGenerator_init raw_path average_speed
  = Returned {| tg_path := deduplicate raw_path; tg_time_knots := [0];
                tg_fit := None |}.
Proof. intros Hlen. unfold TrajectoryGenerator_init. by case_decide. Qed.

(** With two points or more and a speed that is not positive, SciPy rejects
    the knots: the first duration is not positive. *)
Lemma TrajectoryGenerator_init_nonpositive_speed raw_path average_speed :
  (2 <= length (deduplicate raw_path))%nat -> average_speed <= 0 ->
  TrajectoryGenerator_init raw_path average_speed = Raised ValueError.
Proof.
  intros Hlen Hspeed. unfold TrajectoryGenerator_init.
  case_decide; [lia|].
  enough (~ increasing
            (_calculate_time_knots (deduplicate raw_path) average_speed))
    as Hknots by (by rewrite !(CubicSpline_not_increasing _ _ Hknots)).
  destruct (deduplicate raw_path) as [|p [|q path]]; [simpl in Hlen; lia..|].
  unfold _calculate_time_knots.
  change (np_diff3 (p :: q :: path)) with (psub q p :: np_diff3 (q :: path)).
  rewrite !fmap_cons. cbn [np_cumsum]. intros [Hfirst _]%increasing_cons.
  revert Hfirst. unfold np_maximum. R_ops.
  assert (forall d, 0 < d -> ~ 0 < d / average_speed) as Hneg.
  { intros d Hd Hpos. destruct (Req_dec average_speed 0) as [->|Hne].
    - unfold Rdiv in Hpos. rewrite Rinv_0 in Hpos. lra.
    - assert (/ average_speed < 0) by (apply Rinv_lt_0_compat; lra).
      unfold Rdiv in Hpos. nra. }
  destruct (Rltb _ _) eqn:Hlt; apply Hneg; [lra|].
  apply Rltb_false in Hlt. lra.
Qed.

(** With two points or more and a positive speed, the three splines are
    built, and each passes through its coordinate of every waypoint at that
    waypoint's knot. *)
Lemma TrajectoryGenerator_init_fitted raw_path average_speed :
  0 < average_speed -> (2 <= length (deduplicate raw_path))%nat ->
  let path := deduplicate raw_path in
  let time_knots := _calculate_time_knots path average_speed in
  exists cs_x cs_y cs_z,
    TrajectoryGenerator_init raw_path average_speed
    = Returned {| tg_path := path; tg_time_knots := time_knots;
                  tg_fit := Some (average_speed, cs_x, cs_y, cs_z) |} /\
    forall i t x y z,
      time_knots !! i = Some t -> path !! i = Some (x, y, z) ->
      PPoly_call cs_x t = x /\ PPoly_call cs_y t = y /\ PPoly_call cs_z t = z.
Proof.
  intros Hspeed Hlen path time_knots. fold path in Hlen.
  assert (length time_knots = length path) as Hknots.
  { apply length_calculate_time_knots. intros Hnil.
    rewrite Hnil in Hlen. simpl in Hlen. lia. }
  assert (increasing time_knots) as Hinc by by apply increasing_time_knots.
  destruct (CubicSpline_increasing time_knots ((fun p => p.1.1) <$> path))
    as (cx & Hcx & _ & Hx); [lia|by rewrite length_fmap|done|].
  destruct (CubicSpline_increasing time_knots ((fun p => p.1.2) <$> path))
    as (cy & Hcy & _ & Hy); [lia|by rewrite length_fmap|done|].
  destruct (CubicSpline_increasing time_knots ((fun p => p.2) <$> path))
    as (cz & Hcz & _ & Hz); [lia|by rewrite length_fmap|done|].
  eexists _, _, _. split.
  - unfold TrajectoryGenerator_init. fold path. case_decide; [lia|].
    fold time_knots. rewrite Hcx, Hcy, Hcz. reflexivity.
  - intros i t x y z Ht Hp. repeat split.
    + apply (PPoly_call_knot cx time_knots ((fun p => p.1.1) <$> path) i t x);
        [lia|by rewrite length_fmap|done..|].
      exact (list_lookup_fmap_Some_2 _ _ _ _ Hp).
    + apply (PPoly_call_knot cy time_knots ((fun p => p.1.2) <$> path) i t y);
        [lia|by rewrite length_fmap|done..|].
      exact (list_lookup_fmap_Some_2 _ _ _ _ Hp).
    + apply (PPoly_call_knot cz time_knots ((fun p => p.2) <$> path) i t z);
        [lia|by rewrite length_fmap|done..|].
      exact (list_lookup_fmap_Some_2 _ _ _ _ Hp).
Qed.

(** The final knot of a fitted trajectory is positive. *)
Lemma final_knot_positive (path : list (pos R)) average_speed :
  0 < average_speed -> (2 <= length path)%nat ->
  exists total_time,
    last (_calculate_time_knots path average_speed) = Some total_time /\
    0 < total_time.
Proof.
  intros Hspeed Hlen.
  set (time_knots := _calculate_time_knots path average_speed).
  assert (length time_knots = length path) as Hknots.
  { apply length_calculate_time_knots. intros ->. simpl in Hlen. lia. }
  destruct (lookup_lt_is_Some_2 time_knots (pred (length time_knots)))
    as [total_time Htotal]; [lia|].
  exists total_time. rewrite last_lookup. split; [done|].
  eapply (increasing_lookup time_knots 0 (pred (length time_knots)));
    [by apply increasing_time_knots|done|done|lia].
Qed.

(** The stride sequence of [solve]: it is not empty and stays below the
    final knot. *)
Lemma arange_below total_time dt :
  0 < total_time -> 0 < dt ->
  exists grid,
    np_arange 0 total_time dt = Returned grid /\
    grid = (fun i => 0 + INR i * dt) <$> seq 0 (length grid) /\
    (0 < length grid)%nat /\
    INR (length grid) * dt < total_time + dt.
Proof.
  intros Htotal Hdt. unfold np_arange. R_ops.
  rewrite (proj2 (Reqb_false dt 0)) by lra.
  eexists. split; [reflexivity|].
  rewrite length_fmap, length_seq. split; [done|].
  destruct (R_ceil_bounds ((total_time - 0) / dt)) as [Hlo Hhi].
  assert (0 < (total_time - 0) / dt) as Hq by (apply Rdiv_lt_0_compat; lra).
  assert (0 < R_ceil ((total_time - 0) / dt))%Z as Hceil
    by (apply lt_IZR; lra).
  split; [lia|].
  rewrite INR_IZR_INZ, Z2Nat.id by lia.
  apply Rmult_lt_compat_r with (r := dt) in Hhi; [|done].
  replace (((total_time - 0) / dt + 1) * dt) with (total_time + dt) in Hhi
    by (field; lra).
  done.
Qed.

(** What [solve] returns on a fitted trajectory: the stride sequence followed
    by the final knot, and the three splines evaluated on it. *)
Lemma solve_fitted path time_knots average_speed cs_x cs_y cs_z total_time dt :
  (2 <= length path)%nat ->
  last time_knots = Some total_time -> 0 < total_time -> 0 < dt ->
  exists grid,
    let t_eval := grid ++ [total_time] in
    solve {| tg_path := path; tg_time_knots := time_knots;
             tg_fit := Some (average_speed, cs_x, cs_y, cs_z) |} dt
    = Returned (t_eval, PPoly_call cs_x <$> t_eval, PPoly_call cs_y <$> t_eval,
                PPoly_call cs_z <$> t_eval) /\
    (0 < length grid)%nat /\
    (forall i t, grid !! i = Some t -> t = 0 + INR i * dt /\ t < total_time).
Proof.
  intros Hlen Hlast Htotal Hdt.
  destruct (arange_below total_time dt Htotal Hdt)
    as (grid & Hgrid & Hshape & Hpos & Hbound).
  assert (forall i t, grid !! i = Some t -> t = 0 + INR i * dt /\ t < total_time)
    as Hbelow.
  { intros i t Ht. apply lookup_lt_Some in Ht as Hi.
    rewrite Hshape, list_lookup_fmap, lookup_seq_lt in Ht by done.
    simplify_eq/=. split; [done|].
    assert (INR i + 1 <= INR (length grid)).
    { rewrite <- S_INR. apply le_INR. lia. }
    nra. }
  exists grid. split; [|done].
  unfold solve. cbn [tg_path tg_time_knots tg_fit].
  case_decide; [lia|].
  rewrite Hlast. cbn [from_option Datatypes.id].
  R_ops. rewrite Hgrid. cbn [mbind outcome_bind].
  destruct (lookup_lt_is_Some_2 grid (pred (length grid))) as [t_last Hlastg];
    [lia|].
  rewrite last_lookup, Hlastg.
  destruct (Hbelow _ _ Hlastg) as [_ Hlt].
  by rewrite (proj2 (Rltb_true t_last total_time)).
Qed.
End trajectory_real.

(** ** Evaluating the definitions on concrete inputs *)

Section sqrt_tests.
Local Open Scope R_scope.

Lemma sqrt_lt_test r s : 0 < s -> r < s * s -> Rltb (sqrt r) s = true.
Proof.
  intros Hs Hr. apply Rltb_true.
  destruct (Rle_dec 0 r) as [Hr0|Hr0].
  - rewrite <- (sqrt_square s) by lra. by apply sqrt_lt_1; [|nra|].
  - rewrite sqrt_neg_0 by lra. done.
Qed.

Lemma sqrt_ge_test r s : 0 <= s -> s * s <= r -> Rltb (sqrt r) s = false.
Proof.
  intros Hs Hr. apply Rltb_false.
  rewrite <- (sqrt_square s) at 1 by done. apply sqrt_le_1; nra.
Qed.

Lemma lt_sqrt_test c r : 0 <= c -> c * c < r -> Rltb c (sqrt r) = true.
Proof.
  intros Hc Hr. apply Rltb_true.
  rewrite <- (sqrt_square c) at 1 by done. apply sqrt_lt_1; nra.
Qed.

Lemma ge_sqrt_test c r : 0 <= c -> r <= c * c -> Rltb c (sqrt r) = false.
Proof.
  intros Hc Hr. apply Rltb_false.
  destruct (Rle_dec 0 r) as [Hr0|Hr0].
  - rewrite <- (sqrt_square c) by done. apply sqrt_le_1; nra.
  - rewrite sqrt_neg_0 by lra. done.
Qed.
End sqrt_tests.

Section examples_real.
Import Examples.
Local Open Scope R_scope.

(** The offsets for step [1]. *)
Lemma movements_one :
  movements 1
  = [(-1, -1, -1); (-1, -1, 0); (-1, -1, 1); (-1, 0, -1); (-1, 0, 0); (-1, 0, 1);
     (-1, 1, -1); (-1, 1, 0); (-1, 1, 1); (0, -1, -1); (0, -1, 0); (0, -1, 1);
     (0, 0, -1); (0, 0, 1); (0, 1, -1); (0, 1, 0); (0, 1, 1);
     (1, -1, -1); (1, -1, 0); (1, -1, 1); (1, 0, -1); (1, 0, 0); (1, 0, 1);
     (1, 1, -1); (1, 1, 0); (1, 1, 1)].
Proof.
  unfold movements. cbn [mbind list_bind app]. R_ops. R_tests. reflexivity.
Qed.
End examples_real.

Section examples_run.
Import Examples.
Local Open Scope R_scope.

Lemma heappush_nil {A : Type} (lt : A -> A -> bool) (a : A) :
  heappush lt [] a = [a].
Proof. reflexivity. Qed.

Lemma heappop_singleton {A : Type} (lt : A -> A -> bool) (a : A) :
  heappop lt [a] = Some (a, []).
Proof. reflexivity. Qed.

(** A search over the reals, traced turn by turn: from the origin, only the
    move to [(1,0,0)] is free, and from there the goal is within one step. *)
Lemma gap_search :
  a_star_search R_gap_env (0, 0, 0) (3 / 2, 0, 0) 1 2
  = Returned [(0, 0, 0); (0 + 1, 0 + 0, 0 + 0); (3 / 2, 0, 0)].
Proof.
  unfold a_star_search, start_node_of. rewrite heappush_nil.
  cbn [a_star_loop]. unfold a_star_step at 1. cbn [open_list closed_set].
  rewrite heappop_singleton, get_dist_R.
  cbn [get_pos new_Node node_x node_y node_z fst snd].
  R_ops. rewrite sqrt_ge_test by lra.
  rewrite bool_decide_eq_false_2 by set_solver.
  unfold expand. rewrite movements_one. cbn [foldl].
  repeat first
    [ rewrite try_move_collide by (cbn; R_ops; R_tests; reflexivity)
    | rewrite try_move_valid by (split; cbn; R_ops; R_tests; reflexivity) ].
  rewrite heappush_nil.
  unfold a_star_step. cbn [open_list closed_set].
  rewrite heappop_singleton, get_dist_R.
  cbn [get_pos new_Node node_x node_y node_z fst snd].
  R_ops. rewrite sqrt_lt_test by lra.
  reflexivity.
Qed.

(** From the start of the blocked box nothing else is reachable. *)
Lemma blocked_goal_unreachable :
  goal_unreachable R_blocked_env (0, 0, 0) (1 / 2) (5, 0, 0).
Proof.
  intros p Hp. induction Hp as [|p m _ _ _ [_ Hfree]]; [|done].
  rewrite get_dist_R. cbn [fst snd]. R_ops. apply sqrt_ge_test; lra.
Qed.

Lemma blocked_box_bounded x y z :
  is_outside R_blocked_env (x, y, z) = false ->
  Rabs x <= 10 /\ Rabs y <= 10 /\ Rabs z <= 10.
Proof.
  cbn. intros Hin. apply negb_false_iff in Hin.
  repeat (apply andb_true_iff in Hin as [Hin ?%Rleb_true]).
  apply Rleb_true in Hin. repeat split; apply Rabs_le; lra.
Qed.

(** The preprocessing on the three-waypoint scenario of the specification. *)
Lemma deduplicate_scenario :
  deduplicate [(0, 0, 0); (0, 0, 0); (3, 0, 0)] = [(0, 0, 0); (3, 0, 0)].
Proof.
  unfold deduplicate. cbn [np_diff3 psub fmap list_fmap norm]. unfold sq. R_ops.
  rewrite (ge_sqrt_test (1 / 1000)) by lra.
  rewrite (lt_sqrt_test (1 / 1000)) by lra.
  reflexivity.
Qed.

(** Rounding to one decimal against rounding to the step, at [0.01]. *)
Lemma round1_hundredth : R_round1 (1 / 100) = 0%Z.
Proof. apply R_half_even_unique. lra. Qed.

Lemma round_to_resolution_hundredth :
  round_to_resolution (1 / 100) (1 / 100) = 1 / 100.
Proof.
  unfold round_to_resolution. rewrite (R_half_even_unique _ 1); [lra|].
  replace (1 / 100 / (1 / 100)) with 1 by (field; lra). lra.
Qed.
End examples_run.

(** *** The scenarios of the specification, run on machine floats *)

Section scenarios.
Import Examples.
Local Open Scope float_scope.

(** From [(0,0,0)] to [(1,0,0)] with step [0.5] in the empty box: the node at
    [(1,0,0)] is extracted before the goal node is appended, so the goal
    position appears twice. *)
Example scenario_straight_path :
  a_star_search free_env (0, 0, 0) (1, 0, 0) 0.5 100
  = Returned [(0, 0, 0); (0.5, 0, 0); (1, 0, 0); (1, 0, 0)].
Proof. vm_compute. reflexivity. Qed.

(** Three waypoints of which two coincide: two knots, at [0] and [3], and
    the timestamps [0, 1, 2, 3] for stride [1]. *)
Example scenario_timestamps :
  (tg ← TrajectoryGenerator_init [(0, 0, 0); (0, 0, 0); (3, 0, 0)] 1;
   samples ← solve tg 1;
   mret (tg_time_knots tg, samples.1.1.1))
  = Returned ([0; 3], [0; 1; 2; 3]).
Proof. vm_compute. reflexivity. Qed.

(** A single waypoint: the degenerate state, and empty samples. *)
Example scenario_single_waypoint :
  (tg ← TrajectoryGenerator_init [(5, 5, 5)] 2; solve tg 0.1)
  = Returned ([], [], [], []).
Proof. vm_compute. reflexivity. Qed.
End scenarios.

(** ** The planner's results *)

(** A run on machine floats, in the box [[0,10]^3] with a ball-shaped
    obstacle around the start. *)
Lemma ball_search :
  a_star_search Examples.ball_env (0, 0, 0)%float (1, 0, 0)%float 0.5%float 100
  = Returned [(0, 0, 0); (0.5, 0, 0); (1, 0, 0); (1, 0, 0)]%float.
Proof. vm_compute. reflexivity. Qed.

(** C9: a non-empty result has at least two waypoints, starts with exactly
    the given start position and ends with exactly the given goal position. *)
Theorem path_endpoints {num : Type} `{!Arith num} (env : Environment num)
    (start_pos goal_pos : pos num) (step_size : num) (fuel : nat)
    (path : list (pos num)) :
  a_star_search env start_pos goal_pos step_size fuel = Returned path ->
  path <> [] ->
  (2 <= length path)%nat /\ head path = Some start_pos /\ last path = Some goal_pos.
Proof.
  intros Hsearch Hpath.
  apply a_star_search_Returned in Hsearch as [->|(mids & q & -> & _)]; [done|].
  repeat split.
  - simpl. rewrite length_app. simpl. lia.
  - by rewrite app_comm_cons, last_snoc.
Qed.

Lemma path_endpoints_witness :
  let path := [(0, 0, 0); (0.5, 0, 0); (1, 0, 0); (1, 0, 0)]%float in
  (2 <= length path)%nat /\
  head path = Some (0, 0, 0)%float /\ last path = Some (1, 0, 0)%float.
Proof.
  exact (path_endpoints Examples.ball_env (0, 0, 0)%float (1, 0, 0)%float
           0.5%float 100 _ ball_search ltac:(discriminate)).
Defined.

(** A run on machine floats in the same box without obstacles, with a step
    of [0.1]: the third move lands on [0.1 + 0.1 + 0.1], which is not [0.3]. *)
Lemma free_search :
  a_star_search Examples.free_env (0, 0, 0)%float (0.35, 0, 0)%float 0.1%float 100
  = Returned [(0, 0, 0); (0.1, 0, 0); (0.2, 0, 0);
              (0.30000000000000004, 0, 0); (0.35, 0, 0)]%float.
Proof. vm_compute. reflexivity. Qed.

(** C1: when the start position is free, as the planner's contract assumes
    (the planner itself never tests it), every waypoint of a result other
    than the last one, the goal, is neither outside the boundary nor in
    collision. *)
Theorem waypoints_valid {num : Type} `{!Arith num}
    (env : Environment num) (start_pos goal_pos : pos num) (step_size : num)
    (fuel : nat) (path : list (pos num)) (i : nat) (p : pos num) :
  valid env start_pos ->
  a_star_search env start_pos goal_pos step_size fuel = Returned path ->
  (S i < length path)%nat -> path !! i = Some p ->
  is_outside env p = false /\ is_collide env p = false.
Proof.
  intros Hstart Hsearch Hlen Hp.
  apply a_star_search_Returned in Hsearch as [->|(mids & q & -> & Hwalk & _)];
    [simpl in Hlen; lia|].
  destruct i as [|i]; [by simplify_eq/=|]. simpl in Hlen, Hp.
  rewrite length_app in Hlen. simpl in Hlen.
  rewrite lookup_app_l in Hp by lia.
  apply walk_valid in Hwalk. by eapply (Forall_lookup_1 _ _ _ _ Hwalk).
Qed.

Lemma waypoints_valid_witness :
  (is_outside Examples.free_env (0, 0, 0)%float = false /\
   is_collide Examples.free_env (0, 0, 0)%float = false) /\
  (is_outside Examples.free_env (0.30000000000000004, 0, 0)%float = false /\
   is_collide Examples.free_env (0.30000000000000004, 0, 0)%float = false).
Proof.
  split.
  - apply (waypoints_valid Examples.free_env (0, 0, 0)%float
             (0.35, 0, 0)%float 0.1%float 100 _ 0 _ ltac:(by split) free_search);
      [simpl; lia|reflexivity].
  - apply (waypoints_valid Examples.free_env (0, 0, 0)%float
             (0.35, 0, 0)%float 0.1%float 100 _ 3 _ ltac:(by split) free_search);
      [simpl; lia|reflexivity].
Defined.

Section planner_results_real.
Local Open Scope R_scope.

(** Keys of positions inside a box lie in a finite set of cells. *)
Lemma R_round1_range x (B : Z) :
  Rabs x <= IZR B -> (- (10 * B + 1) <= R_round1 x < 10 * B + 2)%Z.
Proof.
  intros Hx. pose proof (R_round1_bounds x) as Hb.
  apply Rabs_le_between in Hx.
  split; [apply le_IZR|apply lt_IZR];
    rewrite ?opp_IZR, !plus_IZR, mult_IZR; lra.
Qed.

(** The planner half of C5: a step size that is not positive raises
    nothing.  The goal test then never succeeds, so the search either is
    still running or has returned the empty sequence. *)
Lemma nonpositive_step_outcome (env : Environment R) start_pos goal_pos s fuel :
  s <= 0 ->
  a_star_search env start_pos goal_pos s fuel = Unfinished \/
  a_star_search env start_pos goal_pos s fuel = Returned [].
Proof.
  intros Hs.
  destruct (a_star_search env start_pos goal_pos s fuel) as [path|e|] eqn:Hsearch.
  - right. f_equal.
    apply a_star_search_Returned in Hsearch
      as [->|(mids & q & _ & _ & _ & _ & Htest)]; [done|].
    rewrite goal_test_nonpositive_step in Htest; done.
  - by apply a_star_search_not_Raised in Hsearch.
  - by left.
Qed.
End planner_results_real.

(** C8 (amended): in exact real arithmetic and with a positive step, the
    distance between consecutive waypoints of a result is [s], [s * sqrt 2]
    or [s * sqrt 3], the last pair (the segment that snaps to the goal)
    excepted. *)
Theorem consecutive_distances (env : Environment R) (start_pos goal_pos : pos R)
    (s : R) (fuel : nat) (path : list (pos R)) (i : nat) (p q : pos R) :
  (0 < s)%R ->
  a_star_search env start_pos goal_pos s fuel = Returned path ->
  (S (S i) < length path)%nat ->
  path !! i = Some p -> path !! S i = Some q ->
  get_dist p q = s \/ get_dist p q = (s * sqrt 2)%R \/
  get_dist p q = (s * sqrt 3)%R.
Proof.
  intros Hs Hsearch Hlen Hp Hq.
  apply a_star_search_Returned in Hsearch as [->|(mids & r & -> & Hwalk & _)];
    [simpl in Hlen; lia|].
  rewrite app_comm_cons in Hlen, Hp, Hq.
  rewrite length_app in Hlen. simpl in Hlen.
  rewrite lookup_app_l in Hp by (simpl; lia).
  rewrite lookup_app_l in Hq by (simpl; lia).
  destruct (walk_moves _ _ _ _ _ _ _ Hwalk Hp Hq) as (m & Hm & ->).
  by apply step_length.
Qed.

Lemma consecutive_distances_witness :
  let p : pos R := (0, 0, 0)%R in
  let q : pos R := (0 + 1, 0 + 0, 0 + 0)%R in
  get_dist p q = 1%R \/ get_dist p q = (1 * sqrt 2)%R \/
  get_dist p q = (1 * sqrt 3)%R.
Proof.
  apply (consecutive_distances Examples.R_gap_env (0, 0, 0)%R (3 / 2, 0, 0)%R
           1%R 2 _ 0 _ _ ltac:(lra) gap_search);
    [simpl; lia|reflexivity|reflexivity].
Defined.

(** C8 as stated fails on binary64, where every waypoint is the rounded sum
    of its predecessor and an offset.  With a step of [0.1] the run
    [free_search] goes from [0.2] to [0.30000000000000004]: the distance
    between the two, as [get_dist] computes it, is [0.10000000000000003],
    none of the three values. *)
Lemma float_lattice_distance_inexact :
  let s := 0.1%float in
  exists path p q,
    a_star_search Examples.free_env (0, 0, 0)%float (0.35, 0, 0)%float s 100
    = Returned path /\
    (S (S 2) < length path)%nat /\
    path !! 2%nat = Some p /\ path !! 3%nat = Some q /\
    get_dist p q = 0.10000000000000003%float /\
    ~ (get_dist p q = s \/
       get_dist p q = nmul s (nsqrt (of_nat 2)) \/
       get_dist p q = nmul s (nsqrt (of_nat 3))).
Proof.
  intros s. eexists _, _, _. split; [exact free_search|].
  split; [simpl; lia|]. split; [reflexivity|]. split; [reflexivity|].
  split; [vm_compute; reflexivity|].
  intros [H|[H|H]];
    apply (f_equal (PrimFloat.eqb 0.10000000000000003%float)) in H;
    vm_compute in H; discriminate.
Qed.

(** C2: when the region inside the boundary is bounded and no reachable
    position passes the goal test, the search ends and returns the empty
    sequence: some amount of fuel is enough, and so is any larger one. *)
Theorem unreachable_goal_returns_empty (env : Environment R)
    (start_pos goal_pos : pos R) (s : R) (B : Z) :
  (forall x y z, is_outside env (x, y, z) = false ->
     (Rabs x <= IZR B)%R /\ (Rabs y <= IZR B)%R /\ (Rabs z <= IZR B)%R) ->
  goal_unreachable env start_pos s goal_pos ->
  exists bound, forall fuel, (bound <= fuel)%nat ->
    a_star_search env start_pos goal_pos s fuel = Returned [].
Proof.
  intros Hbox Hgoal.
  set (range := list_to_set (seqZ (- (10 * B + 1)) (2 * (10 * B + 1) + 1)) : gset Z).
  set (K := cprod (cprod range range) range : gset (Z * Z * Z)).
  exists (27 * size K + 29)%nat. intros fuel Hfuel.
  apply (a_star_search_unreachable env goal_pos start_pos s K); [|done..].
  intros [[x y] z] Hin. apply Hbox in Hin as (Hx & Hy & Hz).
  apply R_round1_range in Hx, Hy, Hz.
  unfold K. rewrite !elem_of_gset_cprod. simpl.
  unfold range. rewrite !elem_of_list_to_set, !elem_of_seqZ. lia.
Qed.

Lemma unreachable_goal_returns_empty_witness :
  exists bound, forall fuel, (bound <= fuel)%nat ->
    a_star_search Examples.R_blocked_env (0, 0, 0)%R (5, 0, 0)%R (1 / 2)%R fuel
    = Returned [].
Proof.
  exact (unreachable_goal_returns_empty Examples.R_blocked_env (0, 0, 0)%R
           (5, 0, 0)%R (1 / 2)%R 10 blocked_box_bounded blocked_goal_unreachable).
Defined.

(** C7 (amended): the key of an extracted node is its coordinates rounded to
    one decimal place, whatever the step size: each component is the number
    of tenths nearest to the coordinate.  A node whose key is already in the
    closed set is skipped without expansion; otherwise the node is expanded
    and its key inserted.  Inserting a key twice changes nothing. *)
Theorem closed_set_step (env : Environment R) (goal_pos : pos R) (s : R)
    (st : search_state) (current : Node R) (open' : list (Node R)) :
  heappop Node_lt (open_list st) = Some (current, open') ->
  nltb (get_dist (get_pos current) goal_pos) s = false ->
  let key := node_key current in
  key = (R_round1 (node_x current), R_round1 (node_y current),
         R_round1 (node_z current)) /\
  (Rabs (node_x current - IZR key.1.1 / 10) <= 1 / 20)%R /\
  (Rabs (node_y current - IZR key.1.2 / 10) <= 1 / 20)%R /\
  (Rabs (node_z current - IZR key.2 / 10) <= 1 / 20)%R /\
  (key ∈ closed_set st ->
   a_star_step env goal_pos s st
   = Continue {| open_list := open'; closed_set := closed_set st |}) /\
  (key ∉ closed_set st ->
   a_star_step env goal_pos s st
   = Continue {| open_list := expand env goal_pos s current open';
                 closed_set := {[ key ]} ∪ closed_set st |}) /\
  {[ key ]} ∪ ({[ key ]} ∪ closed_set st) = {[ key ]} ∪ closed_set st.
Proof.
  intros Hpop Hgoal key.
  split; [done|].
  pose proof (R_round1_bounds (node_x current)).
  pose proof (R_round1_bounds (node_y current)).
  pose proof (R_round1_bounds (node_z current)).
  repeat split; try (apply Rabs_le; simpl; lra).
  - intros Hkey. unfold a_star_step. rewrite Hpop, Hgoal.
    by rewrite bool_decide_eq_true_2.
  - intros Hkey. unfold a_star_step. rewrite Hpop, Hgoal.
    by rewrite bool_decide_eq_false_2.
  - set_solver.
Qed.

Lemma closed_set_step_witness :
  let goal_pos : pos R := (5, 0, 0)%R in
  let n := start_node_of (1 / 100, 0, 0)%R goal_pos in
  node_key n = (0, 0, 0)%Z /\
  a_star_step Examples.R_gap_env goal_pos 1%R
    {| open_list := [n]; closed_set := {[ (0, 0, 0)%Z ]} |}
  = Continue {| open_list := []; closed_set := {[ (0, 0, 0)%Z ]} |}.
Proof.
  intros goal_pos n.
  assert (node_key n = (0, 0, 0)%Z) as Hkey.
  { unfold node_key, n, start_node_of, new_Node. cbn [node_x node_y node_z fst snd].
    R_ops. rewrite round1_hundredth.
    assert (R_round1 0 = 0%Z) as -> by (apply R_half_even_unique; lra).
    reflexivity. }
  split; [exact Hkey|].
  destruct (closed_set_step Examples.R_gap_env goal_pos 1%R
              {| open_list := [n]; closed_set := {[ (0, 0, 0)%Z ]} |} n [])
    as (_ & _ & _ & _ & Hskip & _).
  - reflexivity.
  - unfold n, start_node_of, goal_pos. rewrite get_dist_R.
    cbn [get_pos new_Node node_x node_y node_z fst snd].
    R_ops. apply sqrt_ge_test; lra.
  - apply Hskip. cbn [closed_set]. rewrite Hkey. set_solver.
Defined.

(** C7 as stated fails for a step of [0.01]: the node at [x = 0.01] has the
    key component [0.0], while its coordinate rounded to the step is
    [0.01]. *)
Lemma key_not_rounded_to_step :
  let s := (1 / 100)%R in
  let n := new_Node (0 + s)%R 0%R 0%R 0%R 0%R None in
  (IZR (node_key n).1.1 / 10)%R <> round_to_resolution s (node_x n).
Proof.
  intros s n. unfold node_key, n, s, new_Node. cbn [node_x fst snd]. R_ops.
  replace (0 + 1 / 100)%R with (1 / 100)%R by lra.
  rewrite round1_hundredth, round_to_resolution_hundredth. lra.
Qed.

(** ** The trajectory generator's results *)

(** Construction followed by sampling, for a positive speed, at least two
    points after the preprocessing and a positive stride. *)
Lemma solve_after_init (raw_path : list (pos R)) (average_speed dt : R) :
  (0 < average_speed)%R -> (2 <= length (deduplicate raw_path))%nat ->
  (0 < dt)%R ->
  exists tg total_time grid cs_x cs_y cs_z,
    TrajectoryGenerator_init raw_path average_speed = Returned tg /\
    last (tg_time_knots tg) = Some total_time /\
    (let t_eval := grid ++ [total_time] in
     solve tg dt
     = Returned (t_eval, PPoly_call cs_x <$> t_eval, PPoly_call cs_y <$> t_eval,
                 PPoly_call cs_z <$> t_eval)) /\
    (0 < length grid)%nat /\
    (forall i t, grid !! i = Some t ->
       t = (0 + INR i * dt)%R /\ (t < total_time)%R).
Proof.
  intros Hspeed Hlen Hdt.
  destruct (TrajectoryGenerator_init_fitted raw_path average_speed Hspeed Hlen)
    as (cs_x & cs_y & cs_z & Hinit & _).
  destruct (final_knot_positive (deduplicate raw_path) average_speed Hspeed Hlen)
    as (total_time & Hlast & Htotal).
  destruct (solve_fitted (deduplicate raw_path)
              (_calculate_time_knots (deduplicate raw_path) average_speed)
              average_speed cs_x cs_y cs_z total_time dt Hlen Hlast Htotal Hdt)
    as (grid & Hsolve & Hgrid).
  eexists _, total_time, grid, cs_x, cs_y, cs_z.
  split; [exact Hinit|]. split; [exact Hlast|]. split; [exact Hsolve|exact Hgrid].
Qed.




(** C4: under the same conditions and for every positive stride, the
    timestamps that [solve] returns end with exactly the final knot. *)
Theorem solve_ends_at_final_knot (raw_path : list (pos R))
    (average_speed dt : R) :
  (0 < average_speed)%R -> (2 <= length (deduplicate raw_path))%nat ->
  (0 < dt)%R ->
  exists tg t_eval x_traj y_traj z_traj total_time,
    TrajectoryGenerator_init raw_path average_speed = Returned tg /\
    solve tg dt = Returned (t_eval, x_traj, y_traj, z_traj) /\
    last (tg_time_knots tg) = Some total_time /\
    last t_eval = Some total_time.
Proof.
  intros Hspeed Hlen Hdt.
  destruct (solve_after_init raw_path average_speed dt Hspeed Hlen Hdt)
    as (tg & total_time & grid & cs_x & cs_y & cs_z & Hinit & Hlast & Hsolve & _).
  eexists tg, _, _, _, _, total_time.
  split; [exact Hinit|]. split; [exact Hsolve|]. split; [exact Hlast|].
  apply last_snoc.
Qed.

Lemma solve_ends_at_final_knot_witness :
  exists tg t_eval x_traj y_traj z_traj total_time,
    TrajectoryGenerator_init [(0, 0, 0); (0, 0, 0); (3, 0, 0)]%R 1%R
    = Returned tg /\
    solve tg (2 / 5)%R = Returned (t_eval, x_traj, y_traj, z_traj) /\
    last (tg_time_knots tg) = Some total_time /\
    last t_eval = Some total_time.
Proof.
  apply solve_ends_at_final_knot; [lra| |lra].
  rewrite deduplicate_scenario. simpl. lia.
Defined.

(** C10: under the same conditions, [solve] returns four arrays of one
    length; the timestamps start at exactly [0] and increase strictly. *)
Theorem solve_timestamps_increase (raw_path : list (pos R))
    (average_speed dt : R) :
  (0 < average_speed)%R -> (2 <= length (deduplicate raw_path))%nat ->
  (0 < dt)%R ->
  exists tg t_eval x_traj y_traj z_traj,
    TrajectoryGenerator_init raw_path average_speed = Returned tg /\
    solve tg dt = Returned (t_eval, x_traj, y_traj, z_traj) /\
    length x_traj = length t_eval /\
    length y_traj = length t_eval /\
    length z_traj = length t_eval /\
    head t_eval = Some 0%R /\
    forall i a b, t_eval !! i = Some a -> t_eval !! S i = Some b -> (a < b)%R.
Proof.
  intros Hspeed Hlen Hdt.
  destruct (solve_after_init raw_path average_speed dt Hspeed Hlen Hdt)
    as (tg & total_time & grid & cs_x & cs_y & cs_z
        & Hinit & Hlast & Hsolve & Hpos & Hgrid).
  eexists tg, _, _, _, _.
  split; [exact Hinit|]. split; [exact Hsolve|].
  rewrite !length_fmap. do 3 (split; [reflexivity|]). split.
  - destruct grid as [|t0 grid]; [simpl in Hpos; lia|].
    destruct (Hgrid 0%nat t0 eq_refl) as [-> _]. simpl. f_equal. lra.
  - intros i a b Ha Hb.
    apply lookup_lt_Some in Hb as Hi. rewrite length_app in Hi. simpl in Hi.
    rewrite lookup_app_l in Ha by lia.
    destruct (Hgrid _ _ Ha) as [-> Hbelow].
    destruct (decide (S i < length grid)%nat) as [Hin|Hend].
    + rewrite lookup_app_l in Hb by done.
      destruct (Hgrid _ _ Hb) as [-> _]. rewrite S_INR. nra.
    + rewrite lookup_app_r in Hb by lia.
      replace (S i - length grid)%nat with 0%nat in Hb by lia.
      by simplify_eq/=.
Qed.

Lemma solve_timestamps_increase_witness :
  exists tg t_eval x_traj y_traj z_traj,
    TrajectoryGenerator_init [(0, 0, 0); (0, 0, 0); (3, 0, 0)]%R 1%R
    = Returned tg /\
    solve tg (2 / 5)%R = Returned (t_eval, x_traj, y_traj, z_traj) /\
    length x_traj = length t_eval /\
    length y_traj = length t_eval /\
    length z_traj = length t_eval /\
    head t_eval = Some 0%R /\
    forall i a b, t_eval !! i = Some a -> t_eval !! S i = Some b -> (a < b)%R.
Proof.
  apply solve_timestamps_increase; [lra| |lra].
  rewrite deduplicate_scenario. simpl. lia.
Defined.

(** C5 (amended): neither call checks its configuration.  With a step size
    that is not positive the planner raises nothing; its goal test never
    succeeds, so the search is still running or has returned the empty
    sequence.  With a speed that is not positive the constructor returns the
    degenerate state when fewer than two waypoints are left, and otherwise
    fails with the [ValueError] that SciPy raises for the time knots. *)
Theorem nonpositive_configuration (env : Environment R)
    (start_pos goal_pos : pos R) (step_size : R) (fuel : nat)
    (raw_path : list (pos R)) (average_speed : R) :
  (step_size <= 0)%R -> (average_speed <= 0)%R ->
  (a_star_search env start_pos goal_pos step_size fuel = Unfinished \/
   a_star_search env start_pos goal_pos step_size fuel = Returned []) /\
  ((length (deduplicate raw_path) < 2)%nat ->
   TrajectoryGenerator_init raw_path average_speed
   = Returned {| tg_path := deduplicate raw_path; tg_time_knots := [0%R];
                 tg_fit := None |}) /\
  ((2 <= length (deduplicate raw_path))%nat ->
   TrajectoryGenerator_init raw_path average_speed = Raised ValueError).
Proof.
  intros Hstep Hspeed. split; [by apply nonpositive_step_outcome|]. split.
  - apply TrajectoryGenerator_init_degenerate.
  - intros Hlen. by apply TrajectoryGenerator_init_nonpositive_speed.
Qed.

Lemma nonpositive_configuration_witness :
  (a_star_search Examples.R_blocked_env (0, 0, 0)%R (5, 0, 0)%R 0%R 3 = Unfinished \/
   a_star_search Examples.R_blocked_env (0, 0, 0)%R (5, 0, 0)%R 0%R 3 = Returned []) /\
  TrajectoryGenerator_init [(5, 5, 5)%R] (-1)%R
  = Returned {| tg_path := [(5, 5, 5)%R]; tg_time_knots := [0%R];
                tg_fit := None |}.
Proof.
  destruct (nonpositive_configuration Examples.R_blocked_env (0, 0, 0)%R
              (5, 0, 0)%R 0%R 3 [(5, 5, 5)%R] (-1)%R)
    as (Hplan & Hdegenerate & _); [lra..|].
  split; [exact Hplan|]. apply Hdegenerate. simpl. lia.
Defined.

(** C5 as stated fails: a zero step size and a negative speed are both
    accepted without any error. *)
Lemma invalid_configuration_accepted :
  a_star_search Examples.free_env (0, 0, 0)%float (1, 0, 0)%float 0%float 100
  = Returned [] /\
  TrajectoryGenerator_init [(5, 5, 5)%float] (-1)%float
  = Returned {| tg_path := [(5, 5, 5)%float]; tg_time_knots := [0%float];
                tg_fit := None |}.
Proof. split; vm_compute; reflexivity. Qed.

(** C6: the preprocessing compares each point with the point before it in
    the input, not with the last point kept.  On a path that drifts away in
    small steps and jumps back, the two points kept are identical, so their
    separation is not above the threshold. *)
Theorem deduplicate_keeps_close_points :
  let raw_path :=
    [(0, 0, 0); (0.0005, 0, 0); (0.001, 0, 0); (0.0015, 0, 0); (0, 0, 0)]%float in
  deduplicate raw_path = [(0, 0, 0); (0, 0, 0)]%float /\
  nltb lit_1e_3 (norm (psub (0, 0, 0) (0, 0, 0))%float) = false.
Proof. split; vm_compute; reflexivity. Qed.

(** * Further properties of the code *)

(** ** The planner at its edges *)

Section planner_edges.
Context {num : Type} `{!Arith num}.
Local Open Scope num_scope.
Implicit Types (env : Environment num) (p q m : pos num).

Lemma get_pos_start_node start_pos goal_pos :
  get_pos (start_node_of start_pos goal_pos) = start_pos.
Proof. apply pos_eta. Qed.

(** The first turn of the loop always extracts the start node. *)
Lemma a_star_search_unfold env start_pos goal_pos step_size fuel :
  a_star_search env start_pos goal_pos step_size (S fuel)
  = if get_dist start_pos goal_pos <? step_size then
      Returned [start_pos; goal_pos]
    else
      a_star_loop env goal_pos step_size fuel
        {| open_list :=
             expand env goal_pos step_size (start_node_of start_pos goal_pos) [];
           closed_set := {[ pos_key start_pos ]} ∪ ∅ |}.
Proof.
  unfold a_star_search. rewrite heappush_nil.
  cbn [a_star_loop]. unfold a_star_step at 1. cbn [open_list closed_set].
  rewrite heappop_singleton, get_pos_start_node.
  destruct (_ <? _).
  - rewrite reconstruct_path_goal.
    change (backtrack (start_node_of start_pos goal_pos))
      with [get_pos (start_node_of start_pos goal_pos)].
    by rewrite get_pos_start_node.
  - rewrite bool_decide_eq_false_2 by set_solver.
    by rewrite node_key_pos_key, get_pos_start_node.
Qed.

Lemma foldl_try_move_rejected env goal_pos current open (ms : list (pos num)) :
  Forall (fun m => is_outside env (padd (get_pos current) m) = true \/
                   is_collide env (padd (get_pos current) m) = true) ms ->
  foldl (try_move env goal_pos current) open ms = open.
Proof.
  induction 1 as [|m ms [Hout|Hcol] _ IH]; simpl; [done|..].
  - by rewrite try_move_outside.
  - by rewrite try_move_collide.
Qed.

Lemma a_star_loop_empty env goal_pos step_size fuel closed :
  a_star_loop env goal_pos step_size (S fuel)
    {| open_list := []; closed_set := closed |} = Returned [].
Proof. reflexivity. Qed.
End planner_edges.

(** X1: when the start already lies within one step of the goal, the result
    is the two-point path from start to goal, whatever the environment says:
    no position is tested. *)
Theorem start_within_step {num : Type} `{!Arith num} (env : Environment num)
    (start_pos goal_pos : pos num) (step_size : num) (fuel : nat) :
  nltb (get_dist start_pos goal_pos) step_size = true ->
  a_star_search env start_pos goal_pos step_size (S fuel)
  = Returned [start_pos; goal_pos].
Proof. intros Hnear. by rewrite a_star_search_unfold, Hnear. Qed.

Lemma start_within_step_witness :
  a_star_search Examples.blocked_env (0, 0, 0)%float (0.25, 0, 0)%float 0.5%float 1
  = Returned [(0, 0, 0); (0.25, 0, 0)]%float.
Proof.
  apply (start_within_step Examples.blocked_env (0, 0, 0)%float
           (0.25, 0, 0)%float 0.5%float 0).
  vm_compute. reflexivity.
Defined.

(** X2: when the start is not within one step of the goal and every
    neighbour of the start is outside the boundary or in collision, the
    search returns the empty sequence on its second turn. *)
Theorem enclosed_start_returns_empty {num : Type} `{!Arith num}
    (env : Environment num) (start_pos goal_pos : pos num) (step_size : num)
    (fuel : nat) :
  nltb (get_dist start_pos goal_pos) step_size = false ->
  (forall m, m ∈ movements step_size ->
     is_outside env (padd start_pos m) = true \/
     is_collide env (padd start_pos m) = true) ->
  a_star_search env start_pos goal_pos step_size (S (S fuel)) = Returned [].
Proof.
  intros Hfar Hblocked. rewrite a_star_search_unfold, Hfar.
  unfold expand. rewrite foldl_try_move_rejected; [done|].
  rewrite get_pos_start_node. by apply Forall_forall.
Qed.

Lemma enclosed_start_returns_empty_witness :
  a_star_search Examples.blocked_env (0, 0, 0)%float (5, 0, 0)%float 0.5%float 2
  = Returned [].
Proof.
  apply (enclosed_start_returns_empty Examples.blocked_env (0, 0, 0)%float
           (5, 0, 0)%float 0.5%float 0).
  - vm_compute. reflexivity.
  - intros m _. right. reflexivity.
Defined.

(** X3: with step size [0] there are no offsets at all and the goal test
    cannot succeed, so the search returns the empty sequence on its second
    turn for every environment, start and goal, even when start and goal
    coincide. *)
Theorem zero_step_returns_empty (env : Environment R) (start_pos goal_pos : pos R)
    (fuel : nat) :
  movements 0%R = [] /\
  a_star_search env start_pos goal_pos 0%R (S (S fuel)) = Returned [].
Proof.
  assert (movements 0%R = []) as Hnone.
  { unfold movements. cbn [mbind list_bind app]. R_ops. R_tests. reflexivity. }
  split; [exact Hnone|].
  rewrite a_star_search_unfold, goal_test_nonpositive_step by lra.
  unfold expand. by rewrite Hnone.
Qed.

(** X4: in every result, each waypoint before the goal is obtained from the
    waypoint before it by adding one of the offsets of [movements],
    coordinate by coordinate. *)
Theorem path_steps_are_offsets {num : Type} `{!Arith num} (env : Environment num)
    (start_pos goal_pos : pos num) (step_size : num) (fuel : nat)
    (path : list (pos num)) (i : nat) (p q : pos num) :
  a_star_search env start_pos goal_pos step_size fuel = Returned path ->
  (S (S i) < length path)%nat ->
  path !! i = Some p -> path !! S i = Some q ->
  exists m, m ∈ movements step_size /\ q = padd p m.
Proof.
  intros Hsearch Hlen Hp Hq.
  apply a_star_search_Returned in Hsearch as [->|(mids & r & -> & Hwalk & _)];
    [simpl in Hlen; lia|].
  rewrite app_comm_cons in Hlen, Hp, Hq.
  rewrite length_app in Hlen. simpl in Hlen.
  rewrite lookup_app_l in Hp by (simpl; lia).
  rewrite lookup_app_l in Hq by (simpl; lia).
  by eapply walk_moves.
Qed.

Lemma path_steps_are_offsets_witness :
  exists m, m ∈ movements 0.5%float /\
            (0.5, 0, 0)%float = padd (0, 0, 0)%float m.
Proof.
  apply (path_steps_are_offsets Examples.ball_env (0, 0, 0)%float
           (1, 0, 0)%float 0.5%float 100 _ 0 _ _ ball_search);
    [simpl; lia|reflexivity|reflexivity].
Defined.

(** X5: in every non-empty result, the waypoint just before the goal passes
    the goal test: the last segment is shorter than one step. *)
Theorem last_segment_within_step {num : Type} `{!Arith num}
    (env : Environment num) (start_pos goal_pos : pos num) (step_size : num)
    (fuel : nat) (path : list (pos num)) :
  a_star_search env start_pos goal_pos step_size fuel = Returned path ->
  path <> [] ->
  exists p, path !! (length path - 2)%nat = Some p /\
            nltb (get_dist p goal_pos) step_size = true.
Proof.
  intros Hsearch Hpath.
  apply a_star_search_Returned in Hsearch
    as [->|(mids & p & -> & _ & Hlast & _ & Htest)]; [done|].
  exists p. split; [|done].
  rewrite last_lookup in Hlast. cbn [length pred] in Hlast.
  rewrite app_comm_cons, length_app. cbn [length].
  replace (S (length mids) + 1 - 2)%nat with (length mids) by lia.
  by rewrite lookup_app_l by (simpl; lia).
Qed.

Lemma last_segment_within_step_witness :
  exists p, [(0, 0, 0); (0.5, 0, 0); (1, 0, 0); (1, 0, 0)]%float !! 2%nat = Some p /\
            nltb (get_dist p (1, 0, 0)%float) 0.5%float = true.
Proof.
  exact (last_segment_within_step Examples.ball_env (0, 0, 0)%float
           (1, 0, 0)%float 0.5%float 100 _ ball_search ltac:(discriminate)).
Defined.

(** ** The offsets and the distance, over the reals *)

Section offsets_real.
Local Open Scope R_scope.

Lemma movements_nonzero s :
  s <> 0 ->
  movements s
  = [(-s, -s, -s); (-s, -s, 0); (-s, -s, s); (-s, 0, -s); (-s, 0, 0); (-s, 0, s);
     (-s, s, -s); (-s, s, 0); (-s, s, s); (0, -s, -s); (0, -s, 0); (0, -s, s);
     (0, 0, -s); (0, 0, s); (0, s, -s); (0, s, 0); (0, s, s);
     (s, -s, -s); (s, -s, 0); (s, -s, s); (s, 0, -s); (s, 0, 0); (s, 0, s);
     (s, s, -s); (s, s, 0); (s, s, s)].
Proof.
  intros Hs. unfold movements. cbn [mbind list_bind app]. R_ops.
  rewrite (proj2 (Reqb_true 0 0)) by done.
  rewrite (proj2 (Reqb_false s 0)) by done.
  rewrite (proj2 (Reqb_false (- s) 0)) by lra.
  reflexivity.
Qed.

Lemma sum_squares_nonneg a b c : 0 <= a * a + b * b + c * c.
Proof.
  pose proof (Rle_0_sqr a). pose proof (Rle_0_sqr b). pose proof (Rle_0_sqr c).
  unfold Rsqr in *. lra.
Qed.

Lemma Cauchy_Schwarz3 u1 u2 u3 v1 v2 v3 :
  u1 * v1 + u2 * v2 + u3 * v3
  <= sqrt (u1 * u1 + u2 * u2 + u3 * u3) * sqrt (v1 * v1 + v2 * v2 + v3 * v3).
Proof.
  set (U := u1 * u1 + u2 * u2 + u3 * u3).
  set (V := v1 * v1 + v2 * v2 + v3 * v3).
  assert (0 <= U) by apply sum_squares_nonneg.
  assert (0 <= V) by apply sum_squares_nonneg.
  destruct (Rle_dec (u1 * v1 + u2 * v2 + u3 * v3) 0) as [Hneg|Hpos].
  { etrans; [exact Hneg|]. apply Rmult_le_pos; apply sqrt_pos. }
  rewrite <- sqrt_mult by done.
  rewrite <- (sqrt_square (u1 * v1 + u2 * v2 + u3 * v3)) by lra.
  apply sqrt_le_1; [nra|nra|].
  unfold U, V.
  pose proof (Rle_0_sqr (u1 * v2 - u2 * v1)).
  pose proof (Rle_0_sqr (u1 * v3 - u3 * v1)).
  pose proof (Rle_0_sqr (u2 * v3 - u3 * v2)).
  unfold Rsqr in *. nra.
Qed.
Lemma get_dist_triangle (p q r : pos R) :
  get_dist p r <= get_dist p q + get_dist q r.
Proof.
  destruct p as [[x1 y1] z1], q as [[x2 y2] z2], r as [[x3 y3] z3].
  rewrite !get_dist_R. cbn [fst snd].
  pose proof (Cauchy_Schwarz3 (x1 - x2) (y1 - y2) (z1 - z2)
                (x2 - x3) (y2 - y3) (z2 - z3)) as Hcs.
  set (a := sqrt ((x1 - x2) * (x1 - x2) + (y1 - y2) * (y1 - y2)
                  + (z1 - z2) * (z1 - z2))) in *.
  set (b := sqrt ((x2 - x3) * (x2 - x3) + (y2 - y3) * (y2 - y3)
                  + (z2 - z3) * (z2 - z3))) in *.
  assert (0 <= a) by apply sqrt_pos. assert (0 <= b) by apply sqrt_pos.
  assert (a * a = (x1 - x2) * (x1 - x2) + (y1 - y2) * (y1 - y2)
                  + (z1 - z2) * (z1 - z2)) as Ha
    by (apply sqrt_sqrt, sum_squares_nonneg).
  assert (b * b = (x2 - x3) * (x2 - x3) + (y2 - y3) * (y2 - y3)
                  + (z2 - z3) * (z2 - z3)) as Hb
    by (apply sqrt_sqrt, sum_squares_nonneg).
  rewrite <- (sqrt_square (a + b)) by lra.
  apply sqrt_le_1; [apply sum_squares_nonneg|nra|nra].
Qed.

Lemma get_dist_refl (p : pos R) : get_dist p p = 0.
Proof.
  destruct p as [[x y] z]. rewrite get_dist_R. cbn [fst snd].
  rewrite <- sqrt_0. f_equal. ring.
Qed.

(** The cost of a move is the distance it covers. *)
Lemma get_dist_padd (p m : pos R) :
  get_dist p (padd p m) = nsqrt (sq m.1.1 + sq m.1.2 + sq m.2)%num.
Proof.
  destruct p as [[x y] z], m as [[dx dy] dz]. unfold padd. rewrite get_dist_R.
  unfold sq. cbn [fst snd]. R_ops. f_equal. ring.
Qed.
End offsets_real.

(** X6: for a step size other than [0] the planner has exactly 26 offsets:
    the triples whose components are [-s], [0] or [s], the zero triple
    excluded. *)
Theorem movements_are_the_26_neighbours (s : R) :
  s <> 0%R ->
  length (movements s) = 26%nat /\
  forall dx dy dz : R,
    (dx, dy, dz) ∈ movements s <->
    (dx = (- s)%R \/ dx = 0%R \/ dx = s) /\
    (dy = (- s)%R \/ dy = 0%R \/ dy = s) /\
    (dz = (- s)%R \/ dz = 0%R \/ dz = s) /\
    ~ (dx = 0%R /\ dy = 0%R /\ dz = 0%R).
Proof.
  intros Hs. split; [by rewrite movements_nonzero|].
  intros dx dy dz. split; [apply elem_of_movements_R|].
  rewrite movements_nonzero by done.
  intros (Hdx & Hdy & Hdz & Hnz).
  destruct Hdx as [-> | [-> | ->]], Hdy as [-> | [-> | ->]],
    Hdz as [-> | [-> | ->]];
    try (exfalso; apply Hnz; done);
    repeat first [apply list_elem_of_here | apply list_elem_of_further].
Qed.

Lemma movements_are_the_26_neighbours_witness :
  length (movements (1 / 2)%R) = 26%nat /\
  forall dx dy dz : R,
    (dx, dy, dz) ∈ movements (1 / 2)%R <->
    (dx = (- (1 / 2))%R \/ dx = 0%R \/ dx = (1 / 2)%R) /\
    (dy = (- (1 / 2))%R \/ dy = 0%R \/ dy = (1 / 2)%R) /\
    (dz = (- (1 / 2))%R \/ dz = 0%R \/ dz = (1 / 2)%R) /\
    ~ (dx = 0%R /\ dy = 0%R /\ dz = 0%R).
Proof. apply movements_are_the_26_neighbours. lra. Defined.

(** X7: [get_dist] is a metric on positions: it is not negative, it is [0]
    exactly between equal positions, it is symmetric, and it satisfies the
    triangle inequality. *)
Theorem get_dist_metric (p q r : pos R) :
  (0 <= get_dist p q)%R /\
  (get_dist p q = 0%R <-> p = q) /\
  get_dist p q = get_dist q p /\
  (get_dist p r <= get_dist p q + get_dist q r)%R.
Proof.
  destruct p as [[x1 y1] z1], q as [[x2 y2] z2], r as [[x3 y3] z3].
  rewrite !get_dist_R. cbn [fst snd].
  split; [apply sqrt_pos|]. split; [|split].
  - split.
    + intros Hzero. apply sqrt_eq_0 in Hzero; [|apply sum_squares_nonneg].
      pose proof (Rle_0_sqr (x1 - x2)) as Hx.
      pose proof (Rle_0_sqr (y1 - y2)) as Hy.
      pose proof (Rle_0_sqr (z1 - z2)) as Hz.
      unfold Rsqr in Hx, Hy, Hz.
      assert (x1 - x2 = 0)%R by (apply Rsqr_0_uniq; unfold Rsqr; lra).
      assert (y1 - y2 = 0)%R by (apply Rsqr_0_uniq; unfold Rsqr; lra).
      assert (z1 - z2 = 0)%R by (apply Rsqr_0_uniq; unfold Rsqr; lra).
      f_equal; [f_equal|]; lra.
    + intros [= -> -> ->]. rewrite <- sqrt_0. f_equal. ring.
  - f_equal. ring.
  - apply (get_dist_triangle (x1, y1, z1) (x2, y2, z2) (x3, y3, z3)).
Qed.

(** ** Invariants of the search loop *)

Section loop_invariants.
Context {num : Type} `{!Arith num}.
Local Open Scope num_scope.
Implicit Types (n current : Node num) (st : @search_state num).
Implicit Types (C : gset (Z * Z * Z)) (open : list (Node num)).

Variable env : Environment num.
Variable goal_pos : pos num.
Variable step_size : num.

Lemma backtrack_ancestors n : backtrack n = get_pos n :: ancestors n.
Proof. by destruct n. Qed.

(** A returned result is produced by some turn of the loop. *)
Lemma a_star_loop_state fuel st path :
  a_star_loop env goal_pos step_size fuel st = Returned path ->
  exists k st',
    a_star_state env goal_pos step_size k st = Some st' /\
    a_star_step env goal_pos step_size st' = Done path.
Proof.
  revert st. induction fuel as [|fuel IH]; intros st Hloop; [done|].
  simpl in Hloop.
  destruct (a_star_step _ _ _ st) as [path'|st1] eqn:Hstep.
  - simplify_eq. by exists 0%nat, st.
  - destruct (IH _ Hloop) as (k & st' & Hk & Hdone).
    exists (S k), st'. simpl. by rewrite Hstep.
Qed.

Lemma a_star_step_popped st path :
  a_star_step env goal_pos step_size st = Done path ->
  path = [] \/
  exists current open',
    heappop Node_lt (open_list st) = Some (current, open') /\
    (get_dist (get_pos current) goal_pos <? step_size) = true /\
    path = reverse (backtrack current) ++ [goal_pos].
Proof.
  unfold a_star_step. intros Hstep.
  destruct (heappop _ _) as [[current open']|] eqn:Hpop; [|left; congruence].
  destruct (_ <? _) eqn:Hgoal; [|by case_bool_decide].
  right. exists current, open'. rewrite <- reconstruct_path_goal. by simplify_eq.
Qed.

(** What one expansion adds to the open list: children of the expanded
    node, one valid move away, with the costs of the loop body. *)
Lemma Forall_expand (Q : Node num -> Prop) current open :
  Forall Q open ->
  (forall n m,
     m ∈ movements step_size -> valid env (get_pos n) ->
     node_parent n = Some current ->
     get_pos n = padd (get_pos current) m ->
     node_g n = node_g current + nsqrt (sq m.1.1 + sq m.1.2 + sq m.2) ->
     node_h n = get_dist (get_pos n) goal_pos ->
     node_f n = node_g n + node_h n ->
     Q n) ->
  Forall Q (expand env goal_pos step_size current open).
Proof.
  intros Hopen Hchild. unfold expand.
  assert (Forall (fun m => m ∈ movements step_size) (movements step_size)) as Hms
    by (by apply Forall_forall).
  revert Hms open Hopen. generalize (movements step_size) at 2 3.
  intros ms Hms. induction Hms as [|m ms Hm _ IH]; intros open Hopen; [done|].
  cbn [foldl]. apply IH. unfold try_move. destruct m as [[dx dy] dz].
  destruct (is_outside env _) eqn:Hout; [done|].
  destruct (is_collide env _) eqn:Hcol; [done|].
  apply Forall_heappush; [done|].
  by apply (Hchild _ (dx, dy, dz)).
Qed.

Section invariant.
Variable P : gset (Z * Z * Z) -> Node num -> Prop.
Hypothesis P_mono : forall C key n, P C n -> P ({[ key ]} ∪ C) n.
Hypothesis P_child : forall C current n m,
  P C current -> node_key current ∉ C ->
  (get_dist (get_pos current) goal_pos <? step_size) = false ->
  m ∈ movements step_size -> valid env (get_pos n) ->
  node_parent n = Some current ->
  get_pos n = padd (get_pos current) m ->
  node_g n = node_g current + nsqrt (sq m.1.1 + sq m.1.2 + sq m.2) ->
  node_h n = get_dist (get_pos n) goal_pos ->
  node_f n = node_g n + node_h n ->
  P ({[ node_key current ]} ∪ C) n.

Lemma invariant_step st st' :
  a_star_step env goal_pos step_size st = Continue st' ->
  Forall (P (closed_set st)) (open_list st) ->
  Forall (P (closed_set st')) (open_list st').
Proof.
  unfold a_star_step. intros Hstep Hopen.
  destruct (heappop _ _) as [[current open']|] eqn:Hpop; [|done].
  destruct (Forall_heappop _ _ _ _ _ Hpop Hopen) as [Hcur Hopen'].
  destruct (_ <? _) eqn:Hgoal; [done|].
  case_bool_decide as Hkey; simplify_eq/=; [done|].
  apply Forall_expand.
  - eapply Forall_impl; [exact Hopen'|]. intros n Hn. by apply P_mono.
  - intros n m. by apply P_child.
Qed.

Lemma invariant_state k st st' :
  a_star_state env goal_pos step_size k st = Some st' ->
  Forall (P (closed_set st)) (open_list st) ->
  Forall (P (closed_set st')) (open_list st').
Proof.
  revert st. induction k as [|k IH]; intros st Hk Hopen; simplify_eq/=; [done|].
  destruct (a_star_step _ _ _ st) as [|st1] eqn:Hstep; [done|].
  apply (IH st1 Hk). by apply (invariant_step st).
Qed.

Lemma invariant_returned fuel st path :
  a_star_loop env goal_pos step_size fuel st = Returned path ->
  Forall (P (closed_set st)) (open_list st) ->
  path = [] \/
  exists C current,
    P C current /\
    (get_dist (get_pos current) goal_pos <? step_size) = true /\
    path = reverse (backtrack current) ++ [goal_pos].
Proof.
  intros (k & st' & Hstate & Hdone)%a_star_loop_state Hopen.
  pose proof (invariant_state _ _ _ Hstate Hopen) as Hopen'.
  apply a_star_step_popped in Hdone
    as [->|(current & open' & Hpop & Hgoal & ->)]; [by left|].
  destruct (Forall_heappop _ _ _ _ _ Hpop Hopen') as [Hcur _].
  right. by exists (closed_set st'), current.
Qed.
End invariant.

(** *** Expanded nodes lie in distinct cells *)

Lemma search_expanded_waypoints start_pos fuel path :
  a_star_search env start_pos goal_pos step_size fuel = Returned path ->
  path = [] \/
  exists current,
    path = reverse (ancestors current) ++ [get_pos current; goal_pos] /\
    NoDup (pos_key <$> ancestors current) /\
    (forall a, a ∈ ancestors current ->
       (get_dist a goal_pos <? step_size) = false).
Proof.
  intros Hsearch.
  apply (invariant_returned
           (fun C n =>
              NoDup (pos_key <$> ancestors n) /\
              (forall a, a ∈ ancestors n ->
                 pos_key a ∈ C /\ (get_dist a goal_pos <? step_size) = false)))
    in Hsearch as [->|(C & current & (Hnodup & Hanc) & _ & ->)]; [by left|..].
  - right. exists current. rewrite backtrack_ancestors, reverse_cons, <- app_assoc.
    split; [done|]. split; [done|]. intros a Ha. by apply Hanc.
  - intros C key n [Hnodup Hanc]. split; [done|].
    intros a [Hkey Hfar]%Hanc. split; [set_solver|done].
  - intros C current n m [Hnodup Hanc] Hkey Hgoal _ _ Hparent _ _ _ _.
    unfold ancestors at 1 2. rewrite Hparent, backtrack_ancestors, fmap_cons.
    split.
    + apply NoDup_cons. split; [|done].
      intros (a & Heq & [Ha _]%Hanc)%list_elem_of_fmap.
      apply Hkey. by rewrite node_key_pos_key, Heq.
    + intros a [->|[Ha Hfar]%Hanc]%elem_of_cons; [|split; [set_solver|done]].
      split; [|done]. rewrite <- node_key_pos_key. set_solver.
  - apply Forall_heappush; [constructor|].
    split; [constructor|]. intros a Ha. by apply elem_of_nil in Ha.
Qed.

(** *** Nodes that only repeat a closed cell *)

Lemma a_star_loop_drain fuel open C :
  Forall (fun n => (get_dist (get_pos n) goal_pos <? step_size) = false /\
                   node_key n ∈ C) open ->
  (length open < fuel)%nat ->
  a_star_loop env goal_pos step_size fuel {| open_list := open; closed_set := C |}
  = Returned [].
Proof.
  revert open. induction fuel as [|fuel IH]; intros open Hopen Hlen; [lia|].
  cbn [a_star_loop]. unfold a_star_step. cbn [open_list closed_set].
  destruct (heappop _ _) as [[current open']|] eqn:Hpop; [|done].
  destruct (Forall_heappop _ _ _ _ _ Hpop Hopen) as [[Hgoal Hkey] Hopen'].
  apply length_heappop in Hpop.
  rewrite Hgoal, bool_decide_eq_true_2 by done.
  apply IH; [done|lia].
Qed.
End loop_invariants.

(** X8: in every result the waypoints before the last two lie in pairwise
    distinct cells of the closed set: a cell is expanded at most once.  (The
    waypoint just before the goal is returned before its cell is looked up,
    so it is not included.) *)
Theorem expanded_waypoints_in_distinct_cells {num : Type} `{!Arith num}
    (env : Environment num) (start_pos goal_pos : pos num) (step_size : num)
    (fuel : nat) (path : list (pos num)) :
  a_star_search env start_pos goal_pos step_size fuel = Returned path ->
  NoDup (pos_key <$> take (length path - 2) path).
Proof.
  intros [->|(current & -> & Hnodup & _)]%search_expanded_waypoints;
    [constructor|].
  rewrite length_app. cbn [length].
  replace (length (reverse (ancestors current)) + 2 - 2)%nat
    with (length (reverse (ancestors current))) by lia.
  rewrite take_app_length, fmap_reverse. by rewrite reverse_Permutation.
Qed.

Lemma expanded_waypoints_in_distinct_cells_witness :
  NoDup (pos_key <$> take 2 [(0, 0, 0); (0.5, 0, 0); (1, 0, 0); (1, 0, 0)]%float).
Proof.
  exact (expanded_waypoints_in_distinct_cells Examples.ball_env (0, 0, 0)%float
           (1, 0, 0)%float 0.5%float 100 _ ball_search).
Defined.

(** X9: in every result, no waypoint before the last two passes the goal
    test: the search returns at the first extracted node that lies within
    one step of the goal. *)
Theorem earlier_waypoints_fail_goal_test {num : Type} `{!Arith num}
    (env : Environment num) (start_pos goal_pos : pos num) (step_size : num)
    (fuel : nat) (path : list (pos num)) (i : nat) (p : pos num) :
  a_star_search env start_pos goal_pos step_size fuel = Returned path ->
  (i + 2 < length path)%nat -> path !! i = Some p ->
  nltb (get_dist p goal_pos) step_size = false.
Proof.
  intros [->|(current & -> & _ & Hfar)]%search_expanded_waypoints Hi Hp;
    [done|].
  rewrite length_app in Hi. cbn [length] in Hi.
  rewrite lookup_app_l in Hp by lia.
  by apply Hfar, elem_of_reverse, list_elem_of_lookup_2 with i.
Qed.

Lemma earlier_waypoints_fail_goal_test_witness :
  nltb (get_dist (0.5, 0, 0)%float (1, 0, 0)%float) 0.5%float = false.
Proof.
  apply (earlier_waypoints_fail_goal_test Examples.ball_env (0, 0, 0)%float
           (1, 0, 0)%float 0.5%float 100 _ 1 _ ball_search);
    [simpl; lia|reflexivity].
Defined.

(** X10: the bookkeeping of the open list.  After any number of turns,
    every open node has [h] equal to its distance to the goal and [f] equal
    to [g + h]; its [g] is [0] at the start node and otherwise the parent's
    [g] plus the length of the offset between them; and the same holds of all
    its ancestors. *)
Theorem open_nodes_costed {num : Type} `{!Arith num} (env : Environment num)
    (start_pos goal_pos : pos num) (step_size : num) (k i : nat)
    (st : @search_state num) (n : Node num) :
  a_star_state env goal_pos step_size k (initial_state start_pos goal_pos)
  = Some st ->
  open_list st !! i = Some n ->
  costed goal_pos step_size n.
Proof.
  intros Hstate Hn.
  eapply Forall_lookup_1; [|exact Hn].
  apply (invariant_state env goal_pos step_size
           (fun _ n => costed goal_pos step_size n)) in Hstate; [done|done|..].
  - intros C current n' m Hcur _ _ Hm _ Hparent Hpos Hg Hh Hf.
    by eapply costed_child.
  - apply Forall_heappush; [constructor|].
    apply costed_root; [done..| |done].
    by rewrite get_pos_start_node.
Qed.

Lemma open_nodes_costed_witness :
  exists st n,
    a_star_state Examples.ball_env (1, 0, 0)%float 0.5%float 1
      (initial_state (0, 0, 0)%float (1, 0, 0)%float) = Some st /\
    open_list st !! 0%nat = Some n /\
    costed (1, 0, 0)%float 0.5%float n.
Proof.
  eexists _, _. split; [vm_compute; reflexivity|].
  split; [vm_compute; reflexivity|].
  eapply (open_nodes_costed Examples.ball_env (0, 0, 0)%float (1, 0, 0)%float
            0.5%float 1 0); vm_compute; reflexivity.
Defined.

(** X11: a step so fine that every free neighbour of the start rounds to
    the start's own cell ends the search.  If the start and these neighbours
    fail the goal test, every neighbour is skipped as already closed and the
    result is the empty sequence, within [29] turns. *)
Theorem neighbours_in_start_cell_return_empty {num : Type} `{!Arith num}
    (env : Environment num) (start_pos goal_pos : pos num) (step_size : num)
    (fuel : nat) :
  nltb (get_dist start_pos goal_pos) step_size = false ->
  (forall m, m ∈ movements step_size -> valid env (padd start_pos m) ->
     pos_key (padd start_pos m) = pos_key start_pos /\
     nltb (get_dist (padd start_pos m) goal_pos) step_size = false) ->
  (29 <= fuel)%nat ->
  a_star_search env start_pos goal_pos step_size fuel = Returned [].
Proof.
  intros Hfar Hcell Hfuel. destruct fuel as [|fuel]; [lia|].
  rewrite a_star_search_unfold, Hfar. apply a_star_loop_drain.
  - apply Forall_expand; [constructor|].
    intros n m Hm Hvalid _ Hpos _ _ _.
    rewrite get_pos_start_node in Hpos. rewrite Hpos in Hvalid.
    destruct (Hcell m Hm Hvalid) as [Hkey Hgoal].
    rewrite node_key_pos_key, Hpos, Hkey. split; [done|set_solver].
  - pose proof (length_expand env goal_pos step_size
                  (start_node_of start_pos goal_pos) []) as Hlen.
    simpl in Hlen. lia.
Qed.

Lemma neighbours_in_start_cell_return_empty_witness :
  a_star_search Examples.free_env (5, 5, 5)%float (6, 5, 5)%float 0.01%float 29
  = Returned [].
Proof.
  apply (neighbours_in_start_cell_return_empty Examples.free_env
           (5, 5, 5)%float (6, 5, 5)%float 0.01%float 29).
  - vm_compute. reflexivity.
  - intros m Hm _. vm_compute in Hm.
    repeat (apply elem_of_cons in Hm as [->|Hm]; [by vm_compute|]).
    by apply elem_of_nil in Hm.
  - lia.
Defined.

(** ** The order of the open list *)

Section heap_order.
Context {A : Type} (lt : A -> A -> bool).
Implicit Types (heap : list A) (i pos : nat).

(** [lt] is the strict part of a total preorder. *)
Hypothesis lt_asym : forall a b, lt a b = true -> lt b a = false.
Hypothesis lt_negtrans :
  forall a b c, lt a b = false -> lt b c = false -> lt a c = false.

Lemma lt_irrefl a : lt a a = false.
Proof. destruct (lt a a) eqn:Haa; [|done]. by rewrite (lt_asym _ _ Haa) in Haa. Qed.

Lemma parent_lt i : 0 < i -> (i - 1) / 2 < i.
Proof.
  intros Hi. pose proof (Nat.div_mod_eq (i - 1) 2).
  pose proof (Nat.mod_upper_bound (i - 1) 2). lia.
Qed.

Lemma child_cases i pos :
  0 < i -> (i - 1) / 2 = pos -> i = 2 * pos + 1 \/ i = 2 * pos + 1 + 1.
Proof.
  intros Hi Hpos. pose proof (Nat.div_mod_eq (i - 1) 2).
  pose proof (Nat.mod_upper_bound (i - 1) 2). lia.
Qed.

Lemma parent_of_left pos : (2 * pos + 1 - 1) / 2 = pos.
Proof.
  replace (2 * pos + 1 - 1) with (pos * 2) by lia. apply Nat.div_mul. lia.
Qed.

Lemma parent_of_right pos : (2 * pos + 1 + 1 - 1) / 2 = pos.
Proof.
  replace (2 * pos + 1 + 1 - 1) with (1 + pos * 2) by lia.
  rewrite Nat.div_add by lia. done.
Qed.

(** The root of an ordered heap is a least item. *)
Lemma heap_ordered_root heap root i x :
  heap_ordered lt heap -> heap !! 0 = Some root -> heap !! i = Some x ->
  lt x root = false.
Proof.
  intros Hheap Hroot. revert x.
  induction (lt_wf i) as [i _ IH]. intros x Hx.
  destruct (decide (i = 0)) as [->|Hi].
  { simplify_eq. apply lt_irrefl. }
  pose proof (parent_lt i ltac:(lia)) as Hparent.
  destruct (lookup_lt_is_Some_2 heap ((i - 1) / 2)) as [p Hp].
  { apply lookup_lt_Some in Hx. lia. }
  eapply lt_negtrans; [|by apply (IH _ Hparent)].
  apply (Hheap i); [lia|done..].
Qed.

(** Writing [newitem] into the hole at [pos]. *)
Lemma insert_ordered heap newitem pos :
  (forall i c p, 0 < i -> i <> pos -> heap !! i = Some c ->
     heap !! ((i - 1) / 2) = Some p -> lt c p = false) ->
  (forall i c, 0 < i -> (i - 1) / 2 = pos -> heap !! i = Some c ->
     lt c newitem = false) ->
  (0 < pos -> forall p, heap !! ((pos - 1) / 2) = Some p ->
     lt newitem p = false) ->
  heap_ordered lt (<[pos := newitem]> heap).
Proof.
  intros Hedges Hchildren Hparent i c p Hi Hc Hp.
  pose proof (parent_lt i Hi).
  destruct (decide (i = pos)) as [->|Hne].
  - rewrite list_lookup_insert_ne in Hp by lia.
    apply lookup_lt_Some in Hc as Hlen. rewrite length_insert in Hlen.
    rewrite list_lookup_insert_eq in Hc by done. simplify_eq.
    by apply Hparent.
  - rewrite list_lookup_insert_ne in Hc by done.
    destruct (decide ((i - 1) / 2 = pos)) as [Hpos|Hpos].
    + rewrite Hpos in Hp. apply lookup_lt_Some in Hp as Hlen.
      rewrite length_insert in Hlen.
      rewrite list_lookup_insert_eq in Hp by done. simplify_eq.
      by apply (Hchildren i).
    + rewrite list_lookup_insert_ne in Hp by done. by apply (Hedges i).
Qed.

(** The loop of [_siftdown] restores the order when only the edge above
    the hole can be wrong. *)
Lemma siftdown_loop_ordered fuel heap newitem pos :
  pos <= fuel -> pos < length heap ->
  (forall i c p, 0 < i -> i <> pos -> heap !! i = Some c ->
     heap !! ((i - 1) / 2) = Some p -> lt c p = false) ->
  (forall i c, 0 < i -> (i - 1) / 2 = pos -> heap !! i = Some c ->
     lt c newitem = false) ->
  (forall i c g, 0 < pos -> 0 < i -> (i - 1) / 2 = pos -> heap !! i = Some c ->
     heap !! ((pos - 1) / 2) = Some g -> lt c g = false) ->
  heap_ordered lt (_siftdown_loop lt fuel heap newitem 0 pos).
Proof.
  revert heap pos.
  induction fuel as [|fuel IH]; intros heap pos Hfuel Hlen Hedges Hchildren Hgrand;
    cbn [_siftdown_loop].
  { apply insert_ordered; [done..|lia]. }
  case_decide as Hpos; [|apply insert_ordered; [done..|lia]].
  pose proof (parent_lt pos Hpos) as Hparentpos.
  destruct (lookup_lt_is_Some_2 heap ((pos - 1) / 2)) as [parent Hparent]; [lia|].
  rewrite Hparent.
  destruct (lt newitem parent) eqn:Hlt;
    [|apply insert_ordered; [done..|intros _ p Hp; by simplify_eq]].
  apply IH; [lia|rewrite length_insert; lia|..].
  - intros i c p Hi Hne Hc Hp.
    destruct (decide (i = pos)) as [->|Hne'].
    + rewrite list_lookup_insert_eq in Hc by done.
      rewrite list_lookup_insert_ne in Hp by lia. simplify_eq. apply lt_irrefl.
    + rewrite list_lookup_insert_ne in Hc by done.
      destruct (decide ((i - 1) / 2 = pos)) as [Hchild|Hchild].
      * rewrite Hchild, list_lookup_insert_eq in Hp by done. simplify_eq.
        by apply (Hgrand i).
      * rewrite list_lookup_insert_ne in Hp by done. by apply (Hedges i).
  - intros i c Hi Hchild Hc.
    destruct (decide (i = pos)) as [->|Hne].
    + rewrite list_lookup_insert_eq in Hc by done. simplify_eq.
      by apply lt_asym.
    + rewrite list_lookup_insert_ne in Hc by done.
      apply (lt_negtrans _ parent); [|by apply lt_asym].
      apply (Hedges i); [done..|by rewrite Hchild].
  - intros i c g Hpos' Hi Hchild Hc Hg.
    pose proof (parent_lt _ Hpos').
    rewrite list_lookup_insert_ne in Hg by lia.
    assert (lt parent g = false) as Hpg by (apply (Hedges ((pos - 1) / 2)); [lia..|done|done]).
    destruct (decide (i = pos)) as [->|Hne].
    + rewrite list_lookup_insert_eq in Hc by done. by simplify_eq.
    + rewrite list_lookup_insert_ne in Hc by done.
      apply (lt_negtrans _ parent); [|done].
      apply (Hedges i); [done..|by rewrite Hchild].
Qed.

Lemma heappush_ordered heap item :
  heap_ordered lt heap -> heap_ordered lt (heappush lt heap item).
Proof.
  intros Hheap. unfold heappush, _siftdown.
  rewrite lookup_app_r, Nat.sub_diag by done. cbn [lookup list_lookup].
  apply siftdown_loop_ordered; [done|rewrite length_app; simpl; lia|..].
  - intros i c p Hi Hne Hc Hp. pose proof (parent_lt i Hi).
    apply lookup_lt_Some in Hc as Hlen. rewrite length_app in Hlen. simpl in Hlen.
    rewrite lookup_app_l in Hc by lia. rewrite lookup_app_l in Hp by lia.
    by apply (Hheap i).
  - intros i c Hi Hchild Hc. apply lookup_lt_Some in Hc.
    rewrite length_app in Hc. simpl in Hc.
    apply child_cases in Hchild; lia.
  - intros i c g _ Hi Hchild Hc _. apply lookup_lt_Some in Hc.
    rewrite length_app in Hc. simpl in Hc.
    apply child_cases in Hchild; lia.
Qed.

(** The loop of [_siftup] leaves an ordered heap whose hole is a leaf. *)
Lemma siftup_loop_ordered fuel heap pos heap' pos' :
  length heap - pos <= fuel -> pos < length heap ->
  _siftup_loop lt fuel heap pos = (heap', pos') ->
  (forall i c p, 0 < i -> (i - 1) / 2 <> pos -> heap !! i = Some c ->
     heap !! ((i - 1) / 2) = Some p -> lt c p = false) ->
  (forall i c g, 0 < pos -> 0 < i -> (i - 1) / 2 = pos -> heap !! i = Some c ->
     heap !! ((pos - 1) / 2) = Some g -> lt c g = false) ->
  length heap' = length heap /\ pos' < length heap /\
  length heap <= 2 * pos' + 1 /\ heap_ordered lt heap'.
Proof.
  revert heap pos.
  induction fuel as [|fuel IH]; intros heap pos Hfuel Hlen Hloop Hedges Hgrand;
    [lia|].
  cbn [_siftup_loop] in Hloop.
  case_decide as Hchildpos.
  2:{ simplify_eq. split; [done|]. split; [done|]. split; [lia|].
      intros i c p Hi Hc Hp. apply (Hedges i); [done| |done..].
      intros Hchild%child_cases; [|done]. apply lookup_lt_Some in Hc. lia. }
  destruct (lookup_lt_is_Some_2 heap (2 * pos + 1)) as [l Hl]; [done|].
  rewrite Hl in Hloop.
  set (childpos := match heap !! (2 * pos + 1 + 1) with
                   | Some r => if negb (lt l r) then 2 * pos + 1 + 1
                               else 2 * pos + 1
                   | None => 2 * pos + 1
                   end) in Hloop.
  assert (exists c, heap !! childpos = Some c /\
            (childpos = 2 * pos + 1 \/ childpos = 2 * pos + 1 + 1) /\
            forall i x, 0 < i -> (i - 1) / 2 = pos -> heap !! i = Some x ->
              lt x c = false) as (c & Hc & Hcases & Hleast).
  { unfold childpos. destruct (heap !! (2 * pos + 1 + 1)) as [r|] eqn:Hr.
    - destruct (lt l r) eqn:Hlr; cbn [negb].
      + exists l. split; [done|]. split; [by left|].
        intros i x Hi Hchild Hx.
        destruct (child_cases i pos Hi Hchild) as [Hi'|Hi']; rewrite Hi' in Hx.
        * rewrite Hl in Hx. injection Hx as ->. apply lt_irrefl.
        * rewrite Hr in Hx. injection Hx as ->. by apply lt_asym.
      + exists r. split; [done|]. split; [by right|].
        intros i x Hi Hchild Hx.
        destruct (child_cases i pos Hi Hchild) as [Hi'|Hi']; rewrite Hi' in Hx.
        * rewrite Hl in Hx. by injection Hx as ->.
        * rewrite Hr in Hx. injection Hx as ->. apply lt_irrefl.
    - exists l. split; [done|]. split; [by left|].
      intros i x Hi Hchild Hx.
      destruct (child_cases i pos Hi Hchild) as [Hi'|Hi']; rewrite Hi' in Hx.
      * rewrite Hl in Hx. injection Hx as ->. apply lt_irrefl.
      * rewrite Hr in Hx. discriminate. }
  rewrite Hc in Hloop.
  assert ((childpos - 1) / 2 = pos) as Hparent.
  { destruct Hcases as [->| ->]; [apply parent_of_left|apply parent_of_right]. }
  apply lookup_lt_Some in Hc as Hclen.
  apply IH in Hloop; [|rewrite length_insert; lia|rewrite length_insert; lia|..].
  - rewrite length_insert in Hloop. done.
  - intros i x p Hi Hne Hx Hp.
    destruct (decide (i = pos)) as [->|Hne'].
    + pose proof (parent_lt pos Hi).
      rewrite list_lookup_insert_eq in Hx by done.
      rewrite list_lookup_insert_ne in Hp by lia. simplify_eq.
      apply (Hgrand childpos); [done|lia|done..].
    + rewrite list_lookup_insert_ne in Hx by done.
      destruct (decide ((i - 1) / 2 = pos)) as [Hchild|Hchild].
      * rewrite Hchild, list_lookup_insert_eq in Hp by done. simplify_eq.
        by apply (Hleast i).
      * rewrite list_lookup_insert_ne in Hp by done. by apply (Hedges i).
  - intros i x g Hpos1 Hi Hchild Hx Hg.
    rewrite Hparent, list_lookup_insert_eq in Hg by done. simplify_eq.
    assert (i <> pos).
    { apply child_cases in Hchild; [|done]. lia. }
    rewrite list_lookup_insert_ne in Hx by done.
    apply (Hedges i); [done|lia|done|]. by rewrite Hchild.
Qed.

Lemma siftup_ordered heap :
  (forall i c p, 0 < i -> (i - 1) / 2 <> 0 -> heap !! i = Some c ->
     heap !! ((i - 1) / 2) = Some p -> lt c p = false) ->
  heap_ordered lt (_siftup lt heap 0).
Proof.
  intros Hedges. unfold _siftup.
  destruct (heap !! 0) as [newitem|] eqn:Hnew.
  2:{ apply lookup_ge_None in Hnew. intros i c p Hi Hc.
      apply lookup_lt_Some in Hc. lia. }
  apply lookup_lt_Some in Hnew as Hlen.
  destruct (_siftup_loop lt (length heap) heap 0) as [heap' pos'] eqn:Hloop.
  apply siftup_loop_ordered in Hloop as (Hlen' & Hpos' & Hleaf & Hheap');
    [|lia|done|done|lia].
  unfold _siftdown. rewrite list_lookup_insert_eq by lia.
  apply siftdown_loop_ordered; [done|rewrite length_insert; lia|..].
  - intros i c p Hi Hne Hc Hp.
    rewrite list_lookup_insert_ne in Hc by done.
    apply lookup_lt_Some in Hc as Hi'.
    rewrite list_lookup_insert_ne in Hp.
    + by apply (Hheap' i).
    + intros Hchild. symmetry in Hchild. apply child_cases in Hchild; lia.
  - intros i c Hi Hchild Hc. apply lookup_lt_Some in Hc.
    rewrite length_insert in Hc. apply child_cases in Hchild; lia.
  - intros i c g _ Hi Hchild Hc _. apply lookup_lt_Some in Hc.
    rewrite length_insert in Hc. apply child_cases in Hchild; lia.
Qed.

Lemma heappop_root heap item heap' :
  heappop lt heap = Some (item, heap') -> heap !! 0 = Some item.
Proof.
  unfold heappop. intros Hpop.
  destruct (last heap) as [lastelt|] eqn:Hlast; [|done].
  rewrite (last_removelast _ _ Hlast).
  by destruct (removelast heap) as [|returnitem rest]; simplify_eq/=.
Qed.

Lemma heappop_ordered heap item heap' :
  heappop lt heap = Some (item, heap') -> heap_ordered lt heap ->
  heap_ordered lt heap' /\ forall x, x ∈ heap -> lt x item = false.
Proof.
  intros Hpop Hheap. split.
  - unfold heappop in Hpop.
    destruct (last heap) as [lastelt|] eqn:Hlast; [|done].
    rewrite (last_removelast _ _ Hlast) in Hheap.
    destruct (removelast heap) as [|returnitem rest]; simplify_eq/=.
    { intros i c p Hi Hc. by destruct i. }
    apply siftup_ordered. intros i c p Hi Hparent Hc Hp.
    pose proof (parent_lt i Hi).
    apply lookup_lt_Some in Hc as Hlen. simpl in Hlen.
    destruct i as [|i]; [lia|].
    destruct ((S i - 1) / 2) as [|j] eqn:Hj; [done|].
    apply (Hheap (S i)); [lia|..].
    + cbn [lookup list_lookup] in Hc |- *. by apply lookup_app_l_Some.
    + rewrite Hj. cbn [lookup list_lookup] in Hp |- *. by apply lookup_app_l_Some.
  - intros x (i & Hx)%list_elem_of_lookup_1.
    eapply heap_ordered_root; [done| |done]. by eapply heappop_root.
Qed.
End heap_order.

(** ** The costs of the search, over the reals *)

Section costs_real.
Local Open Scope R_scope.
Implicit Types (n current parent : Node R) (st : @search_state R).

Variable env : Environment R.
Variable start_pos goal_pos : pos R.
Variable step_size : R.

Lemma Node_lt_asym n n' : Node_lt n n' = true -> Node_lt n' n = false.
Proof.
  unfold Node_lt. R_ops. intros Hlt%Rltb_true. apply Rltb_false. lra.
Qed.

Lemma Node_lt_negtrans n1 n2 n3 :
  Node_lt n1 n2 = false -> Node_lt n2 n3 = false -> Node_lt n1 n3 = false.
Proof.
  unfold Node_lt. R_ops. intros H12%Rltb_false H23%Rltb_false.
  apply Rltb_false. lra.
Qed.

Lemma Node_lt_false n n' : Node_lt n n' = false <-> node_f n' <= node_f n.
Proof.
  unfold Node_lt. R_ops. rewrite Rltb_false. split; lra.
Qed.

(** [f] does not decrease from a node to its children. *)
Lemma child_f_bound current n m :
  node_h current = get_dist (get_pos current) goal_pos ->
  node_f current = (node_g current + node_h current)%num ->
  get_pos n = padd (get_pos current) m ->
  node_g n = (node_g current + nsqrt (sq m.1.1 + sq m.1.2 + sq m.2))%num ->
  node_h n = get_dist (get_pos n) goal_pos ->
  node_f n = (node_g n + node_h n)%num ->
  node_f current <= node_f n.
Proof.
  intros Hh Hf Hpos Hg' Hh' Hf'.
  rewrite Hf', Hg', Hh', Hf, Hh, Hpos, <- (get_dist_padd (get_pos current)).
  R_ops.
  pose proof (get_dist_triangle (get_pos current)
                (padd (get_pos current) m) goal_pos).
  lra.
Qed.

(** The costs of every open node. *)
Lemma open_costs k st :
  a_star_state env goal_pos step_size k (initial_state start_pos goal_pos)
  = Some st ->
  Forall (fun n =>
            get_dist start_pos (get_pos n) <= node_g n /\
            node_h n = get_dist (get_pos n) goal_pos /\
            node_f n = node_g n + node_h n /\
            (forall parent, node_parent n = Some parent ->
               node_f parent <= node_f n))
    (open_list st).
Proof.
  intros Hstate.
  apply (invariant_state env goal_pos step_size
           (fun _ n =>
              get_dist start_pos (get_pos n) <= node_g n /\
              node_h n = get_dist (get_pos n) goal_pos /\
              node_f n = node_g n + node_h n /\
              (forall parent, node_parent n = Some parent ->
                 node_f parent <= node_f n))) in Hstate; [done|done|..].
  - intros C current n m (Hg & Hh & Hf & _) _ _ _ _ Hparent Hpos Hg' Hh' Hf'.
    split; [|split; [done|split; [done|]]].
    + rewrite Hg', <- (get_dist_padd (get_pos current)), Hpos. R_ops.
      pose proof (get_dist_triangle start_pos (get_pos current)
                    (padd (get_pos current) m)).
      lra.
    + intros parent Hparent'. rewrite Hparent in Hparent'.
      injection Hparent' as <-. by eapply child_f_bound.
  - apply Forall_heappush; [constructor|].
    rewrite get_pos_start_node, get_dist_refl.
    split; [cbn; lra|]. split; [done|]. split; [done|]. by intros parent.
Qed.

(** The open list is a heap ordered by [f]. *)
Lemma open_list_ordered k st0 st :
  a_star_state env goal_pos step_size k st0 = Some st ->
  heap_ordered Node_lt (open_list st0) ->
  heap_ordered Node_lt (open_list st).
Proof.
  revert st0. induction k as [|k IH]; intros st0 Hstate Hheap;
    simplify_eq/=; [done|].
  destruct (a_star_step _ _ _ st0) as [|st1] eqn:Hstep; [done|].
  apply (IH st1 Hstate). clear IH Hstate.
  unfold a_star_step in Hstep.
  destruct (heappop _ _) as [[current open']|] eqn:Hpop; [|done].
  destruct (heappop_ordered _ Node_lt_asym Node_lt_negtrans _ _ _ Hpop Hheap)
    as [Hheap' _].
  destruct (nltb _ _); [done|].
  case_bool_decide; simplify_eq/=; [done|].
  unfold expand. revert Hheap'. generalize open'.
  induction (movements step_size) as [|m ms IH]; intros open Hopen; [done|].
  cbn [foldl]. apply IH. unfold try_move. destruct m as [[dx dy] dz].
  destruct (is_outside env _); [done|].
  destruct (is_collide env _); [done|].
  by apply heappush_ordered;
    [apply Node_lt_asym|apply Node_lt_negtrans|].
Qed.

Lemma initial_state_ordered :
  heap_ordered Node_lt (open_list (initial_state start_pos goal_pos)).
Proof.
  unfold initial_state. cbn [open_list]. rewrite heappush_nil.
  intros i c p Hi Hc. destruct i as [|[|i]]; [lia|done..].
Qed.

Lemma extracted_least k st current open' n :
  a_star_state env goal_pos step_size k (initial_state start_pos goal_pos)
  = Some st ->
  heappop Node_lt (open_list st) = Some (current, open') ->
  n ∈ open_list st -> node_f current <= node_f n.
Proof.
  intros Hstate Hpop Hn. apply Node_lt_false.
  eapply (heappop_ordered _ Node_lt_asym Node_lt_negtrans);
    [exact Hpop| |exact Hn].
  eapply open_list_ordered; [exact Hstate|apply initial_state_ordered].
Qed.

Lemma a_star_state_S k st :
  a_star_state env goal_pos step_size (S k) st
  = match a_star_step env goal_pos step_size st with
    | Continue st' => a_star_state env goal_pos step_size k st'
    | Done _ => None
    end.
Proof. reflexivity. Qed.

(** Two turns in a row. *)
Lemma a_star_state_step k st0 st st' :
  a_star_state env goal_pos step_size k st0 = Some st ->
  a_star_state env goal_pos step_size (S k) st0 = Some st' ->
  a_star_step env goal_pos step_size st = Continue st'.
Proof.
  revert st0. induction k as [|k IH]; intros st0 Hk HSk.
  - simpl in Hk, HSk. simplify_eq.
    by destruct (a_star_step _ _ _ st) as [|st1]; simplify_eq.
  - rewrite a_star_state_S in Hk, HSk.
    destruct (a_star_step _ _ _ st0) as [|st1]; [done|]. by apply (IH st1).
Qed.
End costs_real.

(** A state over the reals, after the first turn of the traced search. *)
Lemma gap_state :
  exists n,
    a_star_state Examples.R_gap_env (3 / 2, 0, 0)%R 1%R 1
      (initial_state (0, 0, 0)%R (3 / 2, 0, 0)%R)
    = Some {| open_list := [n];
              closed_set := {[ pos_key (0, 0, 0)%R ]} ∪ ∅ |} /\
    node_parent n = Some (start_node_of (0, 0, 0)%R (3 / 2, 0, 0)%R).
Proof.
  eexists. unfold initial_state. rewrite heappush_nil.
  cbn [a_star_state]. unfold a_star_step. cbn [open_list closed_set].
  rewrite heappop_singleton, get_pos_start_node, get_dist_R.
  cbn [fst snd]. R_ops. rewrite sqrt_ge_test by lra.
  rewrite bool_decide_eq_false_2 by set_solver.
  unfold expand. rewrite movements_one. cbn [foldl].
  repeat first
    [ rewrite try_move_collide by (cbn; R_ops; R_tests; reflexivity)
    | rewrite try_move_valid by (split; cbn; R_ops; R_tests; reflexivity) ].
  rewrite heappush_nil. split; reflexivity.
Qed.

Lemma heappush_singleton_lt {A : Type} (lt : A -> A -> bool) (a b : A) :
  lt b a = true -> heappush lt [a] b = [b; a].
Proof.
  intros Hlt. unfold heappush, _siftdown. cbn [app length lookup list_lookup].
  cbn [_siftdown_loop]. case_decide; [|lia].
  cbn [Nat.sub Nat.div Nat.divmod fst lookup list_lookup]. by rewrite Hlt.
Qed.

(** A state over the reals with two open nodes: after the first turn in
    [R_fork_env] the open list holds the child at [(1,0,0)], which is nearer
    to the goal [(3,0,0)], before the child at [(0,1,0)], although the latter
    was pushed first. *)
Lemma fork_state :
  exists near_node far_node,
    a_star_state Examples.R_fork_env (3, 0, 0)%R 1%R 1
      (initial_state (0, 0, 0)%R (3, 0, 0)%R)
    = Some {| open_list := [near_node; far_node];
              closed_set := {[ pos_key (0, 0, 0)%R ]} ∪ ∅ |} /\
    get_pos near_node = (0 + 1, 0 + 0, 0 + 0)%R /\
    get_pos far_node = (0 + 0, 0 + 1, 0 + 0)%R.
Proof.
  eexists _, _. unfold initial_state. rewrite heappush_nil.
  cbn [a_star_state]. unfold a_star_step. cbn [open_list closed_set].
  rewrite heappop_singleton, get_pos_start_node, get_dist_R.
  cbn [fst snd]. R_ops. rewrite sqrt_ge_test by lra.
  rewrite bool_decide_eq_false_2 by set_solver.
  unfold expand. rewrite movements_one. cbn [foldl].
  repeat first
    [ rewrite try_move_collide by (cbn; R_ops; R_tests; reflexivity)
    | rewrite try_move_valid by (split; cbn; R_ops; R_tests; reflexivity) ].
  rewrite heappush_nil, heappush_singleton_lt; [split; [reflexivity|done]|].
  unfold Node_lt, start_node_of. rewrite !get_dist_R. unfold sq.
  cbn [node_f node_g node_h node_x node_y node_z new_Node get_pos padd fst snd].
  R_ops. apply Rltb_true.
  replace (1 * 1 + 0 * 0 + 0 * 0)%R with (0 * 0 + 1 * 1 + 0 * 0)%R by ring.
  apply Rplus_lt_compat_l, sqrt_lt_1_alt. lra.
Qed.

(** X12: over the reals the estimate [f] is consistent.  After any number
    of turns, the [f] of an open node is at least the straight-line distance
    from the start to the goal, and at least the [f] of its parent. *)
Theorem f_never_decreases_along_parents (env : Environment R)
    (start_pos goal_pos : pos R) (step_size : R) (k i : nat)
    (st : @search_state R) (n : Node R) :
  a_star_state env goal_pos step_size k (initial_state start_pos goal_pos)
  = Some st ->
  open_list st !! i = Some n ->
  (get_dist start_pos goal_pos <= node_f n)%R /\
  forall parent, node_parent n = Some parent -> (node_f parent <= node_f n)%R.
Proof.
  intros Hstate Hn.
  pose proof (Forall_lookup_1 _ _ _ _ (open_costs _ _ _ _ _ _ Hstate) Hn)
    as (Hg & Hh & Hf & Hparent).
  split; [|done]. rewrite Hf, Hh.
  pose proof (get_dist_triangle start_pos (get_pos n) goal_pos). lra.
Qed.

Lemma f_never_decreases_along_parents_witness :
  exists st n,
    a_star_state Examples.R_gap_env (3 / 2, 0, 0)%R 1%R 1
      (initial_state (0, 0, 0)%R (3 / 2, 0, 0)%R) = Some st /\
    open_list st !! 0%nat = Some n /\
    (get_dist (0, 0, 0)%R (3 / 2, 0, 0)%R <= node_f n)%R /\
    forall parent, node_parent n = Some parent -> (node_f parent <= node_f n)%R.
Proof.
  destruct gap_state as (n & Hstate & _).
  eexists _, n. split; [exact Hstate|]. split; [reflexivity|].
  exact (f_never_decreases_along_parents _ _ _ _ 1 0 _ n Hstate eq_refl).
Defined.

(** X13: over the reals every turn extracts an open node of least [f]. *)
Theorem extracted_node_has_least_f (env : Environment R)
    (start_pos goal_pos : pos R) (step_size : R) (k : nat)
    (st : @search_state R) (current n : Node R) (open' : list (Node R)) :
  a_star_state env goal_pos step_size k (initial_state start_pos goal_pos)
  = Some st ->
  heappop Node_lt (open_list st) = Some (current, open') ->
  n ∈ open_list st ->
  (node_f current <= node_f n)%R.
Proof. apply extracted_least. Qed.

Lemma extracted_node_has_least_f_witness :
  exists st current n open',
    a_star_state Examples.R_fork_env (3, 0, 0)%R 1%R 1
      (initial_state (0, 0, 0)%R (3, 0, 0)%R) = Some st /\
    heappop Node_lt (open_list st) = Some (current, open') /\
    n ∈ open_list st /\
    get_pos current = (0 + 1, 0 + 0, 0 + 0)%R /\
    get_pos n = (0 + 0, 0 + 1, 0 + 0)%R /\
    (node_f current <= node_f n)%R.
Proof.
  destruct fork_state as (near_node & far_node & Hstate & Hnear & Hfar).
  exists {| open_list := [near_node; far_node];
            closed_set := {[ pos_key (0, 0, 0)%R ]} ∪ ∅ |},
    near_node, far_node, [far_node].
  split; [exact Hstate|]. split; [reflexivity|].
  split; [apply list_elem_of_further, list_elem_of_here|].
  split; [exact Hnear|]. split; [exact Hfar|].
  apply (extracted_node_has_least_f _ _ _ _ 1 _ near_node far_node [far_node]
           Hstate eq_refl).
  apply list_elem_of_further, list_elem_of_here.
Defined.

(** X14: over the reals the [f] of the extracted node never decreases from
    one turn to the next. *)
Theorem extracted_f_never_decreases (env : Environment R)
    (start_pos goal_pos : pos R) (step_size : R) (k : nat)
    (st st' : @search_state R) (current current' : Node R)
    (open1 open2 : list (Node R)) :
  a_star_state env goal_pos step_size k (initial_state start_pos goal_pos)
  = Some st ->
  a_star_state env goal_pos step_size (S k) (initial_state start_pos goal_pos)
  = Some st' ->
  heappop Node_lt (open_list st) = Some (current, open1) ->
  heappop Node_lt (open_list st') = Some (current', open2) ->
  (node_f current <= node_f current')%R.
Proof.
  intros Hstate Hstate' Hpop Hpop'.
  pose proof (a_star_state_step _ _ _ _ _ _ _ Hstate Hstate') as Hstep.
  assert (Forall (fun n => node_f current <= node_f n)%R (open_list st))
    as Hleast.
  { apply Forall_forall. intros n Hn.
    exact (extracted_least _ _ _ _ _ _ _ _ _ Hstate Hpop Hn). }
  pose proof (open_costs _ _ _ _ _ _ Hstate) as Hcosts.
  destruct (Forall_heappop _ _ _ _ _ Hpop Hleast) as [_ Hleast'].
  destruct (Forall_heappop _ _ _ _ _ Hpop Hcosts) as [(_ & Hh & Hf & _) _].
  apply heappop_root, list_elem_of_lookup_2 in Hpop'.
  enough (Forall (fun n => node_f current <= node_f n)%R (open_list st'))
    as Hall by (by eapply Forall_forall in Hall).
  unfold a_star_step in Hstep. rewrite Hpop in Hstep.
  destruct (nltb _ _); [done|].
  case_bool_decide; injection Hstep as <-; cbn [open_list]; [done|].
  apply Forall_expand; [done|].
  intros n m _ _ _ Hpos Hg' Hh' Hf'.
  exact (child_f_bound goal_pos current n m Hh Hf Hpos Hg' Hh' Hf').
Qed.

Lemma extracted_f_never_decreases_witness :
  exists st st' current current',
    a_star_state Examples.R_gap_env (3 / 2, 0, 0)%R 1%R 0
      (initial_state (0, 0, 0)%R (3 / 2, 0, 0)%R) = Some st /\
    a_star_state Examples.R_gap_env (3 / 2, 0, 0)%R 1%R 1
      (initial_state (0, 0, 0)%R (3 / 2, 0, 0)%R) = Some st' /\
    heappop Node_lt (open_list st) = Some (current, []) /\
    heappop Node_lt (open_list st') = Some (current', []) /\
    (node_f current <= node_f current')%R.
Proof.
  destruct gap_state as (n & Hstate' & _).
  eexists _, _, _, n. split; [reflexivity|]. split; [exact Hstate'|].
  split; [reflexivity|]. split; [reflexivity|].
  exact (extracted_f_never_decreases _ _ _ _ 0 _ _ _ n [] [] eq_refl Hstate'
           eq_refl eq_refl).
Defined.

(** ** The preprocessing of the waypoints *)

Section adjacent_facts.
Context {A : Type} (P : A -> A -> Prop).

Lemma adjacent_nil : adjacent P [].
Proof. by intros i a b ?. Qed.

Lemma adjacent_singleton a : adjacent P [a].
Proof. by intros [|i] ? ? ? ?. Qed.

Lemma adjacent_cons a b l :
  adjacent P (a :: b :: l) <-> P a b /\ adjacent P (b :: l).
Proof.
  split.
  - intros Hadj. split; [by apply (Hadj 0%nat)|].
    intros i x y Hx Hy. by apply (Hadj (S i)).
  - intros [Hab Hadj] [|i] x y Hx Hy; simplify_eq/=; [done|].
    by apply (Hadj i).
Qed.

Lemma adjacent_tail a l : adjacent P (a :: l) -> adjacent P l.
Proof. intros Hadj i x y Hx Hy. by apply (Hadj (S i)). Qed.
End adjacent_facts.

Section deduplicate_facts.
Context {num : Type} `{!Arith num}.
Local Open Scope num_scope.
Implicit Types (p q : pos num) (l raw_path : list (pos num)).

Lemma select_mask_keep_far p l :
  select ((fun d => lit_1e_3 <? d) <$> (norm <$> np_diff3 (p :: l))) l
  = keep_far p l.
Proof.
  revert p. induction l as [|q l IH]; intros p; [done|].
  change (np_diff3 (p :: q :: l)) with (psub q p :: np_diff3 (q :: l)).
  rewrite !fmap_cons. cbn [select keep_far]. by rewrite IH.
Qed.

(** The mask keeps the first point and then runs [keep_far]. *)
Lemma deduplicate_cons p l : deduplicate (p :: l) = p :: keep_far p l.
Proof. unfold deduplicate. cbn [select]. by rewrite select_mask_keep_far. Qed.

Lemma keep_far_sublist p l : keep_far p l `sublist_of` l.
Proof.
  revert p. induction l as [|q l IH]; intros p; simpl; [constructor|].
  destruct (_ <? _); by constructor.
Qed.

Lemma keep_far_lookup p l j q :
  keep_far p l !! j = Some q ->
  exists i p', (p :: l) !! i = Some p' /\ (p :: l) !! S i = Some q /\ far p' q.
Proof.
  revert p j. induction l as [|q' l IH]; intros p j Hq; [done|].
  simpl in Hq. destruct (_ <? _) eqn:Hfar.
  - destruct j as [|j]; simplify_eq/=; [by exists 0%nat, p|].
    destruct (IH _ _ Hq) as (i & p' & ? & ? & ?). by exists (S i), p'.
  - destruct (IH _ _ Hq) as (i & p' & ? & ? & ?). by exists (S i), p'.
Qed.

Lemma keep_far_exact_duplicates p l :
  adjacent (fun a b => far a b \/ b = a) (p :: l) ->
  adjacent far (p :: keep_far p l).
Proof.
  revert p. induction l as [|q l IH]; intros p Hadj; [apply adjacent_singleton|].
  apply adjacent_cons in Hadj as [Hpq Hadj]. simpl.
  destruct (_ <? _) eqn:Hfar.
  - apply adjacent_cons. split; [done|]. by apply IH.
  - destruct Hpq as [Hpq| ->]; [unfold far in Hpq; congruence|]. by apply IH.
Qed.

Lemma keep_far_all_far p l : adjacent far (p :: l) -> keep_far p l = l.
Proof.
  revert p. induction l as [|q l IH]; intros p Hadj; [done|].
  apply adjacent_cons in Hadj as [Hpq Hadj]. simpl.
  unfold far in Hpq. rewrite Hpq. f_equal. by apply IH.
Qed.
End deduplicate_facts.

(** X15: the preprocessing only removes points: what it keeps is a
    subsequence of the input, in the input's order, and it begins with the
    input's first point. *)
Theorem deduplicate_is_subsequence {num : Type} `{!Arith num}
    (raw_path : list (pos num)) :
  deduplicate raw_path `sublist_of` raw_path /\
  head (deduplicate raw_path) = head raw_path.
Proof.
  destruct raw_path as [|p l]; [done|]. rewrite deduplicate_cons.
  split; [|done]. constructor. apply keep_far_sublist.
Qed.

(** X16: every point that the preprocessing keeps, other than the first, lies
    more than [1e-3] away from the point just before it in the input. *)
Theorem kept_point_far_from_predecessor {num : Type} `{!Arith num}
    (raw_path : list (pos num)) (j : nat) (q : pos num) :
  deduplicate raw_path !! S j = Some q ->
  exists i p, raw_path !! i = Some p /\ raw_path !! S i = Some q /\ far p q.
Proof.
  destruct raw_path as [|p l]; [done|]. rewrite deduplicate_cons.
  apply keep_far_lookup.
Qed.

Lemma kept_point_far_from_predecessor_witness :
  exists i p,
    [(0, 0, 0); (0, 0, 0); (3, 0, 0)]%float !! i = Some p /\
    [(0, 0, 0); (0, 0, 0); (3, 0, 0)]%float !! S i = Some (3, 0, 0)%float /\
    far p (3, 0, 0)%float.
Proof.
  apply (kept_point_far_from_predecessor
           [(0, 0, 0); (0, 0, 0); (3, 0, 0)]%float 0 (3, 0, 0)%float).
  vm_compute. reflexivity.
Defined.

(** X17: when every input point that is not far from the point before it is
    an exact copy of that point (as in the planner's output, which only
    repeats the goal), the preprocessing does what it is meant to do: any two
    consecutive points that it keeps are more than [1e-3] apart. *)
Theorem deduplicate_exact_duplicates {num : Type} `{!Arith num}
    (raw_path : list (pos num)) :
  adjacent (fun p q => far p q \/ q = p) raw_path ->
  adjacent far (deduplicate raw_path).
Proof.
  destruct raw_path as [|p l]; [intros _; apply adjacent_nil|].
  rewrite deduplicate_cons. apply keep_far_exact_duplicates.
Qed.

Lemma deduplicate_exact_duplicates_witness :
  adjacent far (deduplicate [(0, 0, 0); (0, 0, 0); (3, 0, 0); (3, 0, 0)]%float).
Proof.
  apply deduplicate_exact_duplicates.
  intros [|[|[|i]]] a b Ha Hb; simplify_eq/=.
  - by right.
  - left. vm_compute. reflexivity.
  - by right.
Defined.

(** X18: a path whose consecutive points are all more than [1e-3] apart is
    left unchanged by the preprocessing. *)
Theorem deduplicate_far_points_unchanged {num : Type} `{!Arith num}
    (raw_path : list (pos num)) :
  adjacent far raw_path -> deduplicate raw_path = raw_path.
Proof.
  destruct raw_path as [|p l]; [done|]. intros Hadj.
  rewrite deduplicate_cons. f_equal. by apply keep_far_all_far.
Qed.

Lemma deduplicate_far_points_unchanged_witness :
  deduplicate [(0, 0, 0); (0.5, 0, 0); (1, 0.5, 0)]%float
  = [(0, 0, 0); (0.5, 0, 0); (1, 0.5, 0)]%float.
Proof.
  apply deduplicate_far_points_unchanged.
  intros [|[|i]] a b Ha Hb; simplify_eq/=; vm_compute; reflexivity.
Defined.

(** X19: when fewer than two points are left after the preprocessing,
    construction succeeds for every speed and sampling returns four empty
    arrays for every stride, zero and negative strides included. *)
Theorem degenerate_trajectory_samples_empty {num : Type} `{!Arith num}
    (raw_path : list (pos num)) (average_speed dt : num) :
  (length (deduplicate raw_path) < 2)%nat ->
  (tg ← TrajectoryGenerator_init raw_path average_speed; solve tg dt)
  = Returned ([], [], [], []).
Proof.
  intros Hlen. unfold TrajectoryGenerator_init. case_decide; [|lia].
  cbn [mbind outcome_bind]. unfold solve. cbn [tg_path]. by case_decide.
Qed.

Lemma degenerate_trajectory_samples_empty_witness :
  (tg ← TrajectoryGenerator_init [(1, 1, 1); (1, 1, 1)]%float (-1)%float;
   solve tg 0%float)
  = Returned ([], [], [], []).
Proof.
  apply degenerate_trajectory_samples_empty. vm_compute. lia.
Defined.

(** ** Time knots and samples, over the reals *)

Section time_knots_facts.
Local Open Scope R_scope.
Implicit Types (ts : list R) (path : list (pos R)).

Lemma lookup_np_diff3_inv path i d :
  np_diff3 path !! i = Some d ->
  exists p q, path !! i = Some p /\ path !! S i = Some q /\ d = psub q p.
Proof.
  revert i. induction path as [|p [|q path] IH]; intros i Hd; [done..|].
  change (np_diff3 (p :: q :: path)) with (psub q p :: np_diff3 (q :: path)) in Hd.
  destruct i as [|i]; simplify_eq/=; [by exists p, q|].
  destruct (IH _ Hd) as (p' & q' & ? & ? & ?). by exists p', q'.
Qed.

Lemma lookup_cumsum_from acc ts i a b :
  (acc :: cumsum_from acc ts) !! i = Some a ->
  (acc :: cumsum_from acc ts) !! S i = Some b ->
  exists t, ts !! i = Some t /\ b = a + t.
Proof.
  revert acc i. induction ts as [|t ts IH]; intros acc i Ha Hb.
  { by destruct i. }
  destruct i as [|i]; simplify_eq/=; [by exists t|].
  by apply (IH (acc + t)).
Qed.

Lemma lookup_time_knots ts i a b :
  (0 :: np_cumsum ts) !! i = Some a ->
  (0 :: np_cumsum ts) !! S i = Some b ->
  exists t, ts !! i = Some t /\ b - a = t.
Proof.
  destruct ts as [|t ts]; intros Ha Hb.
  { by destruct i. }
  cbn [np_cumsum] in Ha, Hb.
  destruct i as [|i]; simpl in Ha, Hb.
  - injection Ha as <-. injection Hb as <-.
    exists t. split; [done|]. R_ops. lra.
  - destruct (lookup_cumsum_from t ts i a b Ha Hb) as (t' & ? & ->).
    exists t'. split; [done|]. R_ops. lra.
Qed.
End time_knots_facts.

(** X20: for a positive speed the time knots start at [0], and the time
    between two consecutive knots is the distance between their waypoints,
    raised to [1e-6] if it is smaller, divided by the speed.  So every
    segment lasts at least [1e-6 / speed], and the knots increase strictly. *)
Theorem time_knots_spacing (path : list (pos R)) (avg_speed : R)
    (i : nat) (a b : R) :
  (0 < avg_speed)%R ->
  _calculate_time_knots path avg_speed !! i = Some a ->
  _calculate_time_knots path avg_speed !! S i = Some b ->
  head (_calculate_time_knots path avg_speed) = Some 0%R /\
  (exists p q,
     path !! i = Some p /\ path !! S i = Some q /\
     (b - a)%R = (Rmax (get_dist p q) (1 / 1000000) / avg_speed)%R) /\
  (1 / 1000000 / avg_speed <= b - a)%R /\
  (a < b)%R.
Proof.
  intros Hspeed Ha Hb. split; [done|].
  unfold _calculate_time_knots in Ha, Hb.
  destruct (lookup_time_knots _ _ _ _ Ha Hb) as (t & Ht & Hgap).
  rewrite !list_lookup_fmap in Ht.
  destruct (np_diff3 path !! i) as [d|] eqn:Hd; [|done].
  apply lookup_np_diff3_inv in Hd as (p & q & Hp & Hq & ->).
  simplify_eq/=.
  assert (norm (psub q p) = get_dist p q) as Hnorm.
  { destruct p as [[x1 y1] z1], q as [[x2 y2] z2]. rewrite get_dist_R.
    cbn. unfold sq. R_ops. f_equal. ring. }
  assert (np_maximum (norm (psub q p)) (1 / 1000000)%R
          = Rmax (get_dist p q) (1 / 1000000)) as Hmax.
  { rewrite Hnorm. unfold np_maximum, Rmax. R_ops.
    destruct (Rle_dec _ _), (Rltb _ _) eqn:Hlt;
      try apply Rltb_true in Hlt; try apply Rltb_false in Hlt; lra. }
  R_ops. rewrite <- Ht, Hmax.
  pose proof (Rmax_r (get_dist p q) (1 / 1000000)) as Hfloor.
  assert (0 < / avg_speed)%R by by apply Rinv_0_lt_compat.
  split; [by exists p, q|]. unfold Rdiv in *. split; nra.
Qed.

Lemma time_knots_spacing_witness :
  exists a b,
    _calculate_time_knots [(0, 0, 0); (3, 0, 0)]%R 1%R !! 0%nat = Some a /\
    _calculate_time_knots [(0, 0, 0); (3, 0, 0)]%R 1%R !! 1%nat = Some b /\
    (1 / 1000000 / 1 <= b - a)%R /\ (a < b)%R.
Proof.
  eexists _, _. split; [reflexivity|]. split; [reflexivity|].
  eapply (time_knots_spacing [(0, 0, 0); (3, 0, 0)]%R 1%R 0);
    [lra|reflexivity|reflexivity].
Defined.

(** ** Sampling a fitted trajectory, over the reals *)

Section sampling_real.
Local Open Scope R_scope.

(** The timestamps of [solve], written out. *)
Lemma solve_fitted_timestamps (path : list (pos R)) time_knots average_speed
    cs_x cs_y cs_z total_time dt :
  (2 <= length path)%nat ->
  last time_knots = Some total_time -> 0 < total_time -> 0 < dt ->
  let grid :=
    (fun i => 0 + INR i * dt) <$> seq 0 (Z.to_nat (R_ceil ((total_time - 0) / dt))) in
  let t_eval := grid ++ [total_time] in
  solve {| tg_path := path; tg_time_knots := time_knots;
           tg_fit := Some (average_speed, cs_x, cs_y, cs_z) |} dt
  = Returned (t_eval, PPoly_call cs_x <$> t_eval, PPoly_call cs_y <$> t_eval,
              PPoly_call cs_z <$> t_eval) /\
  (0 < Z.to_nat (R_ceil ((total_time - 0) / dt)))%nat /\
  (forall t, t ∈ grid -> 0 <= t < total_time).
Proof.
  intros Hlen Hlast Htotal Hdt grid t_eval.
  destruct (R_ceil_bounds ((total_time - 0) / dt)) as [Hlo Hhi].
  assert (0 < (total_time - 0) / dt) as Hq by (apply Rdiv_lt_0_compat; lra).
  assert (0 < R_ceil ((total_time - 0) / dt))%Z as Hceil by (apply lt_IZR; lra).
  assert (forall t, t ∈ grid -> 0 <= t < total_time) as Hgrid.
  { intros t (i & -> & Hi)%list_elem_of_fmap. apply elem_of_seq in Hi.
    assert (INR i + 1 <= IZR (R_ceil ((total_time - 0) / dt))).
    { rewrite <- S_INR, <- (Z2Nat.id (R_ceil _)) by lia.
      rewrite <- INR_IZR_INZ. apply le_INR. lia. }
    pose proof (pos_INR i).
    assert (INR i * dt < total_time).
    { apply Rmult_lt_reg_r with (r := / dt); [by apply Rinv_0_lt_compat|].
      rewrite Rmult_assoc, Rinv_r by lra. unfold Rdiv in *. lra. }
    split; nra. }
  split; [|split; [lia|done]].
  unfold solve. cbn [tg_path tg_time_knots tg_fit].
  case_decide; [lia|]. rewrite Hlast. cbn [from_option Datatypes.id].
  unfold np_arange. R_ops. rewrite (proj2 (Reqb_false dt 0)) by lra.
  cbn [mbind outcome_bind]. fold grid.
  destruct (last grid) as [t_last|] eqn:Hgl.
  - apply last_Some_elem_of, Hgrid in Hgl.
    by rewrite (proj2 (Rltb_true t_last total_time)) by lra.
  - apply last_None in Hgl. apply (f_equal length) in Hgl.
    unfold grid in Hgl. rewrite length_fmap, length_seq in Hgl. simpl in Hgl. lia.
Qed.
End sampling_real.

(** X21: on a fitted trajectory and for a positive stride, [solve] returns
    [ceil(T / dt) + 1] timestamps, where [T] is the final knot, and all of
    them lie in [[0, T]]: the splines are never evaluated outside the knots. *)
Theorem samples_stay_within_knots (raw_path : list (pos R))
    (average_speed dt : R) :
  (0 < average_speed)%R -> (2 <= length (deduplicate raw_path))%nat ->
  (0 < dt)%R ->
  exists tg total_time t_eval x_traj y_traj z_traj,
    TrajectoryGenerator_init raw_path average_speed = Returned tg /\
    last (tg_time_knots tg) = Some total_time /\
    solve tg dt = Returned (t_eval, x_traj, y_traj, z_traj) /\
    length t_eval = S (Z.to_nat (R_ceil (total_time / dt))) /\
    forall t, t ∈ t_eval -> (0 <= t <= total_time)%R.
Proof.
  intros Hspeed Hlen Hdt.
  destruct (TrajectoryGenerator_init_fitted raw_path average_speed Hspeed Hlen)
    as (cs_x & cs_y & cs_z & Hinit & _).
  destruct (final_knot_positive (deduplicate raw_path) average_speed Hspeed Hlen)
    as (total_time & Hlast & Htotal).
  destruct (solve_fitted_timestamps (deduplicate raw_path)
              (_calculate_time_knots (deduplicate raw_path) average_speed)
              average_speed cs_x cs_y cs_z total_time dt Hlen Hlast Htotal Hdt)
    as (Hsolve & _ & Hgrid).
  eexists _, total_time, _, _, _, _.
  split; [exact Hinit|]. split; [exact Hlast|]. split; [exact Hsolve|]. split.
  - rewrite length_app, length_fmap, length_seq. simpl.
    replace ((total_time - 0) / dt)%R with (total_time / dt)%R by (field; lra).
    lia.
  - intros t [Ht| ->%list_elem_of_singleton]%elem_of_app; [|lra].
    apply Hgrid in Ht. lra.
Qed.

Lemma samples_stay_within_knots_witness :
  exists tg total_time t_eval x_traj y_traj z_traj,
    TrajectoryGenerator_init [(0, 0, 0); (0, 0, 0); (3, 0, 0)]%R 1%R
    = Returned tg /\
    last (tg_time_knots tg) = Some total_time /\
    solve tg (2 / 5)%R = Returned (t_eval, x_traj, y_traj, z_traj) /\
    length t_eval = S (Z.to_nat (R_ceil (total_time / (2 / 5)))) /\
    forall t, t ∈ t_eval -> (0 <= t <= total_time)%R.
Proof.
  apply samples_stay_within_knots; [lra| |lra].
  rewrite deduplicate_scenario. simpl. lia.
Defined.

(** X22: on a fitted trajectory and for a positive stride, the sampled curve
    starts exactly at the first waypoint kept and ends exactly at the last
    waypoint kept. *)
Theorem samples_join_first_and_last_waypoint (raw_path : list (pos R))
    (average_speed dt : R) (x0 y0 z0 x1 y1 z1 : R) :
  (0 < average_speed)%R -> (2 <= length (deduplicate raw_path))%nat ->
  (0 < dt)%R ->
  head (deduplicate raw_path) = Some (x0, y0, z0) ->
  last (deduplicate raw_path) = Some (x1, y1, z1) ->
  exists tg t_eval x_traj y_traj z_traj,
    TrajectoryGenerator_init raw_path average_speed = Returned tg /\
    solve tg dt = Returned (t_eval, x_traj, y_traj, z_traj) /\
    head x_traj = Some x0 /\ head y_traj = Some y0 /\ head z_traj = Some z0 /\
    last x_traj = Some x1 /\ last y_traj = Some y1 /\ last z_traj = Some z1.
Proof.
  intros Hspeed Hlen Hdt Hhead Hlastp.
  destruct (TrajectoryGenerator_init_fitted raw_path average_speed Hspeed Hlen)
    as (cs_x & cs_y & cs_z & Hinit & Hknot).
  destruct (final_knot_positive (deduplicate raw_path) average_speed Hspeed Hlen)
    as (total_time & Hlast & Htotal).
  destruct (solve_fitted_timestamps (deduplicate raw_path)
              (_calculate_time_knots (deduplicate raw_path) average_speed)
              average_speed cs_x cs_y cs_z total_time dt Hlen Hlast Htotal Hdt)
    as (Hsolve & Hpos & _).
  eexists _, _, _, _, _. split; [exact Hinit|]. split; [exact Hsolve|].
  assert (length (_calculate_time_knots (deduplicate raw_path) average_speed)
          = length (deduplicate raw_path)) as Hlenk.
  { apply length_calculate_time_knots. intros Hnil.
    rewrite Hnil in Hlen. simpl in Hlen. lia. }
  rewrite head_lookup in Hhead. rewrite last_lookup in Hlastp.
  rewrite last_lookup in Hlast.
  rewrite Hlenk in Hlast.
  destruct (Hknot 0%nat 0%R x0 y0 z0 eq_refl Hhead) as (Hx0 & Hy0 & Hz0).
  destruct (Hknot _ total_time x1 y1 z1 Hlast Hlastp) as (Hx1 & Hy1 & Hz1).
  rewrite !fmap_app, !list_fmap_singleton, !last_snoc, Hx1, Hy1, Hz1.
  destruct (Z.to_nat _) as [|n]; [lia|]. rewrite <- cons_seq, !fmap_cons.
  cbn [app head].
  replace (0 + INR 0 * dt)%R with 0%R by (simpl; lra).
  by rewrite Hx0, Hy0, Hz0.
Qed.

Lemma samples_join_first_and_last_waypoint_witness :
  exists tg t_eval x_traj y_traj z_traj,
    TrajectoryGenerator_init [(0, 0, 0); (0, 0, 0); (3, 0, 0)]%R 1%R
    = Returned tg /\
    solve tg (2 / 5)%R = Returned (t_eval, x_traj, y_traj, z_traj) /\
    head x_traj = Some 0%R /\ head y_traj = Some 0%R /\ head z_traj = Some 0%R /\
    last x_traj = Some 3%R /\ last y_traj = Some 0%R /\ last z_traj = Some 0%R.
Proof.
  apply samples_join_first_and_last_waypoint;
    [lra| |lra|by rewrite deduplicate_scenario..].
  rewrite deduplicate_scenario. simpl. lia.
Defined.

(** X23: on a fitted trajectory a negative stride makes [np.arange] return
    an empty array, and [solve] fails with an [IndexError] when it reads the
    last timestamp. *)
Theorem negative_stride_raises (raw_path : list (pos R)) (average_speed dt : R) :
  (0 < average_speed)%R -> (2 <= length (deduplicate raw_path))%nat ->
  (dt < 0)%R ->
  (tg ← TrajectoryGenerator_init raw_path average_speed; solve tg dt)
  = Raised IndexError.
Proof.
  intros Hspeed Hlen Hdt.
  destruct (TrajectoryGenerator_init_fitted raw_path average_speed Hspeed Hlen)
    as (cs_x & cs_y & cs_z & -> & _).
  destruct (final_knot_positive (deduplicate raw_path) average_speed Hspeed Hlen)
    as (total_time & Hlast & Htotal).
  cbn [mbind outcome_bind]. unfold solve. cbn [tg_path tg_time_knots tg_fit].
  case_decide; [lia|]. rewrite Hlast. cbn [from_option Datatypes.id].
  unfold np_arange. R_ops. rewrite (proj2 (Reqb_false dt 0)) by lra.
  destruct (R_ceil_bounds ((total_time - 0) / dt)) as [_ Hhi].
  assert ((total_time - 0) / dt < 0)%R as Hneg.
  { unfold Rdiv. assert (/ dt < 0)%R by (by apply Rinv_lt_0_compat). nra. }
  assert (R_ceil ((total_time - 0) / dt) <= 0)%Z as Hceil.
  { apply Z.lt_succ_r, lt_IZR. rewrite succ_IZR. lra. }
  by replace (Z.to_nat _) with 0%nat by lia.
Qed.

Lemma negative_stride_raises_witness :
  (tg ← TrajectoryGenerator_init [(0, 0, 0); (0, 0, 0); (3, 0, 0)]%R 1%R;
   solve tg (-1)%R)
  = Raised IndexError.
Proof.
  apply negative_stride_raises; [lra| |lra].
  rewrite deduplicate_scenario. simpl. lia.
Defined.

(** On binary64 a zero speed makes every duration infinite, and SciPy
    rejects the knots because they are not finite. *)
Lemma zero_speed_rejected :
  _calculate_time_knots [(0, 0, 0); (1, 0, 0)]%float 0%float
  = [0; infinity]%float /\
  TrajectoryGenerator_init [(0, 0, 0); (1, 0, 0)]%float 0%float
  = Raised ValueError.
Proof. split; vm_compute; reflexivity. Qed.

(** ** From the planner to the trajectory generator, over the reals *)

Section pipeline_real.
Local Open Scope R_scope.
Implicit Types (p q : pos R) (l : list (pos R)).

Lemma norm_psub_R p q : norm (psub q p) = get_dist p q.
Proof.
  destruct p as [[x1 y1] z1], q as [[x2 y2] z2]. rewrite get_dist_R.
  unfold norm, psub, sq. R_ops. cbn [fst snd]. f_equal. ring.
Qed.

(** One move of a step above a millimetre passes the filter. *)
Lemma move_is_far s p m :
  1 / 1000 < s -> m ∈ movements s -> far p (padd p m).
Proof.
  intros Hs Hm. unfold far. rewrite norm_psub_R. R_ops.
  apply Rltb_true.
  destruct (step_length s p m ltac:(lra) Hm) as [-> | [-> | ->]]; [lra| |].
  - assert (1 <= sqrt 2); [|nra].
    rewrite <- sqrt_1 at 1. apply sqrt_le_1_alt. lra.
  - assert (1 <= sqrt 3); [|nra].
    rewrite <- sqrt_1 at 1. apply sqrt_le_1_alt. lra.
Qed.

Lemma walk_far env s p l :
  1 / 1000 < s -> walk env s p l -> adjacent far (p :: l).
Proof.
  intros Hs Hwalk. induction Hwalk as [p|p m l Hm _ _ IH];
    [apply adjacent_singleton|].
  apply adjacent_cons. split; [by eapply move_is_far|done].
Qed.

Lemma keep_far_snoc p l r g :
  adjacent far (p :: l) -> last (p :: l) = Some r ->
  keep_far p (l ++ [g])
  = l ++ (if Rltb (1 / 1000) (get_dist r g) then [g] else []).
Proof.
  revert p. induction l as [|q l IH]; intros p Hadj Hlast.
  - simpl in Hlast. injection Hlast as ->. cbn [app keep_far].
    rewrite norm_psub_R. R_ops. by destruct (Rltb _ _).
  - apply adjacent_cons in Hadj as [Hpq Hadj].
    rewrite <- app_comm_cons. cbn [keep_far].
    unfold far in Hpq. rewrite Hpq. rewrite <- app_comm_cons. f_equal.
    by apply IH.
Qed.
End pipeline_real.

(** X24: a planned path handed to the trajectory generator.  With a step
    above the filter's millimetre, the preprocessing keeps every lattice
    waypoint; it drops the goal, and nothing else, exactly when the last
    lattice waypoint is within a millimetre of the goal. *)
Theorem planned_path_preprocessing (env : Environment R)
    (start_pos goal_pos : pos R) (step_size : R) (fuel : nat)
    (path : list (pos R)) :
  (1 / 1000 < step_size)%R ->
  a_star_search env start_pos goal_pos step_size fuel = Returned path ->
  path <> [] ->
  exists p,
    path !! (length path - 2)%nat = Some p /\
    deduplicate path
    = if Rltb (1 / 1000) (get_dist p goal_pos) then path else removelast path.
Proof.
  intros Hstep Hsearch Hpath.
  apply a_star_search_Returned in Hsearch
    as [->|(mids & p & -> & Hwalk & Hlast & _)]; [done|].
  exists p. split.
  - rewrite last_lookup in Hlast. cbn [length pred] in Hlast.
    rewrite app_comm_cons, length_app. cbn [length].
    replace (S (length mids) + 1 - 2)%nat with (length mids) by lia.
    by rewrite lookup_app_l by (simpl; lia).
  - rewrite deduplicate_cons.
    rewrite (keep_far_snoc _ _ p) by (by eapply walk_far || done).
    destruct (Rltb _ _); [done|].
    by rewrite app_nil_r, app_comm_cons, removelast_last.
Qed.

Lemma planned_path_preprocessing_witness :
  exists p,
    [(0, 0, 0); (0 + 1, 0 + 0, 0 + 0); (3 / 2, 0, 0)]%R !! 1%nat = Some p /\
    deduplicate [(0, 0, 0); (0 + 1, 0 + 0, 0 + 0); (3 / 2, 0, 0)]%R
    = if Rltb (1 / 1000) (get_dist p (3 / 2, 0, 0)%R)
      then [(0, 0, 0); (0 + 1, 0 + 0, 0 + 0); (3 / 2, 0, 0)]%R
      else removelast [(0, 0, 0); (0 + 1, 0 + 0, 0 + 0); (3 / 2, 0, 0)]%R.
Proof.
  apply (planned_path_preprocessing Examples.R_gap_env (0, 0, 0)%R
           (3 / 2, 0, 0)%R 1%R 2 _ ltac:(lra) gap_search ltac:(discriminate)).
Defined.
